(** * Bingo client: card store, transmission sequencer, event reconciler

    A shallow embedding of [src/App.jsx].  React state is one record
    [App]; every [setX] of the component is a field update; callbacks
    registered with [setTimeout] or on a [FileReader] are kept, with the
    values their closures captured, in the list [tasks] until they fire.
    Frames handed to [socket.send] are recorded in [sent] as the JSON value
    that the code passes to [JSON.stringify]. *)

From Stdlib Require Import String Ascii List Arith Bool Lia.
From stdpp Require Import base list strings.
Import ListNotations.

Local Open Scope string_scope.
Local Open Scope list_scope.
Local Open Scope nat_scope.

(** ** JavaScript values *)

(** A value that may be [undefined] or [null]: [None] stands for both. *)
Definition js (A : Type) : Type := option A.

(** The argument of [JSON.stringify]. *)
#[warnings="-register-all"]
Inductive json : Type :=
| JString (s : string)
| JArray (items : list json)
| JObject (fields : list (string * json)).

(** [obj[key]] on a JSON object. *)
Fixpoint assoc (key : string) (fields : list (string * json)) : option json :=
  match fields with
  | [] => None
  | (k, v) :: rest => if String.eqb k key then Some v else assoc key rest
  end.

Definition member (key : string) (j : json) : option json :=
  match j with
  | JObject fields => assoc key fields
  | _ => None
  end.

Definition keys (j : json) : list string :=
  match j with
  | JObject fields => map fst fields
  | _ => []
  end.

(** ** Strings: [trim], [split('\n')], [split(/\s+/)]

    A string holds the UTF-8 bytes of the JavaScript string.  A character
    is a byte that is not a continuation byte together with the continuation
    bytes that follow it.  White space is what [String.prototype.trim] and
    [\s] accept: U+0009 to U+000D, U+0020, U+00A0, U+1680, U+2000 to U+200A,
    U+2028, U+2029, U+202F, U+205F, U+3000 and U+FEFF. *)

Definition cons_head {A : Type} (c : A) (parts : list (list A)) : list (list A) :=
  match parts with
  | cur :: rest => (c :: cur) :: rest
  | [] => [[c]]
  end.

(** A continuation byte of UTF-8: 0x80 to 0xBF. *)
Definition is_cont (c : ascii) : bool :=
  let n := nat_of_ascii c in (128 <=? n) && (n <=? 191).

Definition next_is_cont (l : list ascii) : bool :=
  match l with
  | [] => false
  | c :: _ => is_cont c
  end.

(** The characters of a byte sequence, each as its bytes. *)
Fixpoint chars (l : list ascii) : list (list ascii) :=
  match l with
  | [] => []
  | c :: r => if next_is_cont r then cons_head c (chars r) else [c] :: chars r
  end.

(** Is the character white space?  The cases are the UTF-8 encodings of the
    code points above. *)
Definition is_ws (ch : list ascii) : bool :=
  match map nat_of_ascii ch with
  | [n] => ((9 <=? n) && (n <=? 13)) || (n =? 32)
  | [a; b] => (a =? 194) && (b =? 160)
  | [a; b; c] =>
      ((a =? 225) && (b =? 154) && (c =? 128))
      || ((a =? 226) && (b =? 128)
          && (((128 <=? c) && (c <=? 138))
              || (c =? 168) || (c =? 169) || (c =? 175)))
      || ((a =? 226) && (b =? 129) && (c =? 159))
      || ((a =? 227) && (b =? 128) && (c =? 128))
      || ((a =? 239) && (b =? 187) && (c =? 191))
  | _ => false
  end.

Fixpoint drop_ws (l : list (list ascii)) : list (list ascii) :=
  match l with
  | [] => []
  | c :: r => if is_ws c then drop_ws r else l
  end.

(** The characters of [s.trim()]. *)
Definition trim_chars (l : list (list ascii)) : list (list ascii) :=
  rev (drop_ws (rev (drop_ws l))).

Definition trim (s : string) : string :=
  string_of_list_ascii
    (concat (trim_chars (chars (list_ascii_of_string s)))).

Fixpoint split_chars (sep : ascii) (l : list ascii) : list (list ascii) :=
  match l with
  | [] => [[]]
  | c :: r =>
      if Ascii.eqb c sep then [] :: split_chars sep r
      else cons_head c (split_chars sep r)
  end.

(** [s.split('\n')] *)
Definition split_lines (s : string) : list string :=
  map string_of_list_ascii
      (split_chars (ascii_of_nat 10) (list_ascii_of_string s)).

Fixpoint split_ws_chars (in_sep : bool) (l : list (list ascii))
  : list (list (list ascii)) :=
  match l with
  | [] => [[]]
  | c :: r =>
      if is_ws c then
        (if in_sep then split_ws_chars true r else [] :: split_ws_chars true r)
      else cons_head c (split_ws_chars false r)
  end.

(** [s.split(/\s+/)] *)
Definition split_ws (s : string) : list string :=
  map (fun t => string_of_list_ascii (concat t))
      (split_ws_chars false (chars (list_ascii_of_string s))).

(** Truthiness of a string: non-empty. *)
Definition truthy (s : string) : bool := negb (String.eqb s "").

(** [arr.includes(x)] on an array of strings. *)
Definition includes (arr : list string) (x : string) : bool :=
  existsb (String.eqb x) arr.

(** ** Language configurations *)

Record LanguageConfig := { rows : nat; cols : nat; total : nat }.

(** [Object.entries(LANGUAGE_CONFIGS)], in declaration order. *)
Definition LANGUAGE_CONFIGS : list (string * LanguageConfig) :=
  [ ("spanish",    {| rows := 4; cols := 6; total := 24 |});
    ("english",    {| rows := 2; cols := 7; total := 14 |});
    ("portuguese", {| rows := 5; cols := 4; total := 20 |});
    ("dutch",      {| rows := 2; cols := 5; total := 10 |}) ].

Fixpoint detectLanguage_loop (entries : list (string * LanguageConfig))
         (wordCount : nat) : string :=
  match entries with
  | [] => "spanish"
  | (lang, config) :: rest =>
      if total config =? wordCount then lang
      else detectLanguage_loop rest wordCount
  end.

Definition detectLanguage (wordCount : nat) : string :=
  detectLanguage_loop LANGUAGE_CONFIGS wordCount.

(** ** Cards *)

(** Both places that create a card ([parseTxtFile], [handleManualSubmit])
    give it every field, so [card.markedWords || []] is [card.markedWords]. *)
Record Card := mkCard {
  card_id : string;
  card_words : list string;
  card_language : string;
  transmitted : bool;
  markedWords : list string
}.

(** [{ ...c, transmitted: true }] *)
Definition with_transmitted (c : Card) : Card :=
  {| card_id := card_id c; card_words := card_words c;
     card_language := card_language c; transmitted := true;
     markedWords := markedWords c |}.

(** [{ ...card, markedWords: m }] *)
Definition with_markedWords (m : list string) (c : Card) : Card :=
  {| card_id := card_id c; card_words := card_words c;
     card_language := card_language c; transmitted := transmitted c;
     markedWords := m |}.

(** The loop body of [parseTxtFile] over the non-blank lines. *)
Fixpoint parseTxtFile_lines (lines : list string) : list Card :=
  match lines with
  | [] => []
  | line :: rest =>
      let parts := split_ws (trim line) in
      if length parts <? 2 then parseTxtFile_lines rest
      else
        match parts with
        | [] => parseTxtFile_lines rest
        | id :: words =>
            if length words =? 0 then parseTxtFile_lines rest
            else
              let language := detectLanguage (length words) in
              {| card_id := id; card_words := words; card_language := language;
                 transmitted := false; markedWords := [] |}
                :: parseTxtFile_lines rest
        end
  end.

Definition parseTxtFile (content : string) : list Card :=
  let lines := List.filter (fun line => truthy (trim line)) (split_lines content) in
  if length lines =? 0 then [] else parseTxtFile_lines lines.


(** ** Inbound messages

    The object produced by [JSON.parse(event.data)].  A field that the
    payload does not carry reads as [undefined]. *)
Record Data := mkData {
  data_type : string;
  data_count : js nat;
  data_language : js string;
  data_word : js string;
  data_card_ids : js (list string);
  data_winners : js (list string)
}.

(** ** Outbound frames *)

(** [{ type: 'register', user: name }] *)
Definition register_frame (name : string) : json :=
  JObject [("type", JString "register"); ("user", JString name)].

(** [{ type: 'bingo_card', card: { id, words, language } }] *)
Definition bingo_card_frame (card : Card) : json :=
  JObject
    [ ("type", JString "bingo_card");
      ("card", JObject [ ("id", JString (card_id card));
                         ("words", JArray (map JString (card_words card)));
                         ("language", JString (card_language card)) ]) ].

(** [{ type: 'play' }] *)
Definition play_frame : json := JObject [("type", JString "play")].

Definition is_bingo_card_frame (j : json) : bool :=
  match member "type" j with
  | Some (JString t) => String.eqb t "bingo_card"
  | _ => false
  end.

(** ** Application state *)

(** [WebSocket.readyState] *)
Inductive ReadyState := CONNECTING | OPEN | CLOSING | CLOSED.

(** A callback waiting to run, with what its closure captured. *)
Inductive Task :=
| SelectTimer (updated : list Card) (language : js string)
    (* setTimeout(..., 0) in the word_selected handler *)
| TransmitTimer (updatedCards : list Card)
    (* setTimeout(..., 100) in transmitNextCard *)
| ReaderOnload (bingoCards : list Card) (content : string).
    (* reader.onload in handleFileUpload; bingoCards is the render's value *)

(** The component: its [useState] values, the [readyState] of the socket
    held by [socketRef] ([None] before [setupWebSocket]), the frames passed
    to [socket.send] so far, oldest first, and the pending callbacks. *)
Record App := mkApp {
  socketRef : option ReadyState;
  socketReady : bool;
  showStartModal : bool;
  bingoCards : list Card;
  selectedCardIndex : nat;
  currentWord : js string;
  showLoadModal : bool;
  manualInput : string;
  manualCardId : string;
  isTransmitting : bool;
  userName : string;
  currentLanguage : js string;
  playerCount : js nat;
  gameStarted : bool;
  showWinnersModal : bool;
  winners : js (list string);
  showRoundWinnersModal : bool;
  roundWinners : js (list string);
  roundLanguage : js string;
  sent : list json;
  tasks : list Task
}.

(** The state updates [setX(v)], one per field. *)
Definition setSocketRef (v : option ReadyState) (s : App) : App :=
  {| socketRef := v; socketReady := socketReady s; showStartModal := showStartModal s;
     bingoCards := bingoCards s; selectedCardIndex := selectedCardIndex s; currentWord := currentWord s;
     showLoadModal := showLoadModal s; manualInput := manualInput s; manualCardId := manualCardId s;
     isTransmitting := isTransmitting s; userName := userName s; currentLanguage := currentLanguage s;
     playerCount := playerCount s; gameStarted := gameStarted s; showWinnersModal := showWinnersModal s;
     winners := winners s; showRoundWinnersModal := showRoundWinnersModal s; roundWinners := roundWinners s;
     roundLanguage := roundLanguage s; sent := sent s; tasks := tasks s |}.

Definition setSocketReady (v : bool) (s : App) : App :=
  {| socketRef := socketRef s; socketReady := v; showStartModal := showStartModal s;
     bingoCards := bingoCards s; selectedCardIndex := selectedCardIndex s; currentWord := currentWord s;
     showLoadModal := showLoadModal s; manualInput := manualInput s; manualCardId := manualCardId s;
     isTransmitting := isTransmitting s; userName := userName s; currentLanguage := currentLanguage s;
     playerCount := playerCount s; gameStarted := gameStarted s; showWinnersModal := showWinnersModal s;
     winners := winners s; showRoundWinnersModal := showRoundWinnersModal s; roundWinners := roundWinners s;
     roundLanguage := roundLanguage s; sent := sent s; tasks := tasks s |}.

Definition setShowStartModal (v : bool) (s : App) : App :=
  {| socketRef := socketRef s; socketReady := socketReady s; showStartModal := v;
     bingoCards := bingoCards s; selectedCardIndex := selectedCardIndex s; currentWord := currentWord s;
     showLoadModal := showLoadModal s; manualInput := manualInput s; manualCardId := manualCardId s;
     isTransmitting := isTransmitting s; userName := userName s; currentLanguage := currentLanguage s;
     playerCount := playerCount s; gameStarted := gameStarted s; showWinnersModal := showWinnersModal s;
     winners := winners s; showRoundWinnersModal := showRoundWinnersModal s; roundWinners := roundWinners s;
     roundLanguage := roundLanguage s; sent := sent s; tasks := tasks s |}.

Definition setBingoCards (v : list Card) (s : App) : App :=
  {| socketRef := socketRef s; socketReady := socketReady s; showStartModal := showStartModal s;
     bingoCards := v; selectedCardIndex := selectedCardIndex s; currentWord := currentWord s;
     showLoadModal := showLoadModal s; manualInput := manualInput s; manualCardId := manualCardId s;
     isTransmitting := isTransmitting s; userName := userName s; currentLanguage := currentLanguage s;
     playerCount := playerCount s; gameStarted := gameStarted s; showWinnersModal := showWinnersModal s;
     winners := winners s; showRoundWinnersModal := showRoundWinnersModal s; roundWinners := roundWinners s;
     roundLanguage := roundLanguage s; sent := sent s; tasks := tasks s |}.

Definition setSelectedCardIndex (v : nat) (s : App) : App :=
  {| socketRef := socketRef s; socketReady := socketReady s; showStartModal := showStartModal s;
     bingoCards := bingoCards s; selectedCardIndex := v; currentWord := currentWord s;
     showLoadModal := showLoadModal s; manualInput := manualInput s; manualCardId := manualCardId s;
     isTransmitting := isTransmitting s; userName := userName s; currentLanguage := currentLanguage s;
     playerCount := playerCount s; gameStarted := gameStarted s; showWinnersModal := showWinnersModal s;
     winners := winners s; showRoundWinnersModal := showRoundWinnersModal s; roundWinners := roundWinners s;
     roundLanguage := roundLanguage s; sent := sent s; tasks := tasks s |}.

Definition setCurrentWord (v : js string) (s : App) : App :=
  {| socketRef := socketRef s; socketReady := socketReady s; showStartModal := showStartModal s;
     bingoCards := bingoCards s; selectedCardIndex := selectedCardIndex s; currentWord := v;
     showLoadModal := showLoadModal s; manualInput := manualInput s; manualCardId := manualCardId s;
     isTransmitting := isTransmitting s; userName := userName s; currentLanguage := currentLanguage s;
     playerCount := playerCount s; gameStarted := gameStarted s; showWinnersModal := showWinnersModal s;
     winners := winners s; showRoundWinnersModal := showRoundWinnersModal s; roundWinners := roundWinners s;
     roundLanguage := roundLanguage s; sent := sent s; tasks := tasks s |}.

Definition setShowLoadModal (v : bool) (s : App) : App :=
  {| socketRef := socketRef s; socketReady := socketReady s; showStartModal := showStartModal s;
     bingoCards := bingoCards s; selectedCardIndex := selectedCardIndex s; currentWord := currentWord s;
     showLoadModal := v; manualInput := manualInput s; manualCardId := manualCardId s;
     isTransmitting := isTransmitting s; userName := userName s; currentLanguage := currentLanguage s;
     playerCount := playerCount s; gameStarted := gameStarted s; showWinnersModal := showWinnersModal s;
     winners := winners s; showRoundWinnersModal := showRoundWinnersModal s; roundWinners := roundWinners s;
     roundLanguage := roundLanguage s; sent := sent s; tasks := tasks s |}.

Definition setManualInput (v : string) (s : App) : App :=
  {| socketRef := socketRef s; socketReady := socketReady s; showStartModal := showStartModal s;
     bingoCards := bingoCards s; selectedCardIndex := selectedCardIndex s; currentWord := currentWord s;
     showLoadModal := showLoadModal s; manualInput := v; manualCardId := manualCardId s;
     isTransmitting := isTransmitting s; userName := userName s; currentLanguage := currentLanguage s;
     playerCount := playerCount s; gameStarted := gameStarted s; showWinnersModal := showWinnersModal s;
     winners := winners s; showRoundWinnersModal := showRoundWinnersModal s; roundWinners := roundWinners s;
     roundLanguage := roundLanguage s; sent := sent s; tasks := tasks s |}.

Definition setManualCardId (v : string) (s : App) : App :=
  {| socketRef := socketRef s; socketReady := socketReady s; showStartModal := showStartModal s;
     bingoCards := bingoCards s; selectedCardIndex := selectedCardIndex s; currentWord := currentWord s;
     showLoadModal := showLoadModal s; manualInput := manualInput s; manualCardId := v;
     isTransmitting := isTransmitting s; userName := userName s; currentLanguage := currentLanguage s;
     playerCount := playerCount s; gameStarted := gameStarted s; showWinnersModal := showWinnersModal s;
     winners := winners s; showRoundWinnersModal := showRoundWinnersModal s; roundWinners := roundWinners s;
     roundLanguage := roundLanguage s; sent := sent s; tasks := tasks s |}.

Definition setIsTransmitting (v : bool) (s : App) : App :=
  {| socketRef := socketRef s; socketReady := socketReady s; showStartModal := showStartModal s;
     bingoCards := bingoCards s; selectedCardIndex := selectedCardIndex s; currentWord := currentWord s;
     showLoadModal := showLoadModal s; manualInput := manualInput s; manualCardId := manualCardId s;
     isTransmitting := v; userName := userName s; currentLanguage := currentLanguage s;
     playerCount := playerCount s; gameStarted := gameStarted s; showWinnersModal := showWinnersModal s;
     winners := winners s; showRoundWinnersModal := showRoundWinnersModal s; roundWinners := roundWinners s;
     roundLanguage := roundLanguage s; sent := sent s; tasks := tasks s |}.

Definition setUserName (v : string) (s : App) : App :=
  {| socketRef := socketRef s; socketReady := socketReady s; showStartModal := showStartModal s;
     bingoCards := bingoCards s; selectedCardIndex := selectedCardIndex s; currentWord := currentWord s;
     showLoadModal := showLoadModal s; manualInput := manualInput s; manualCardId := manualCardId s;
     isTransmitting := isTransmitting s; userName := v; currentLanguage := currentLanguage s;
     playerCount := playerCount s; gameStarted := gameStarted s; showWinnersModal := showWinnersModal s;
     winners := winners s; showRoundWinnersModal := showRoundWinnersModal s; roundWinners := roundWinners s;
     roundLanguage := roundLanguage s; sent := sent s; tasks := tasks s |}.

Definition setCurrentLanguage (v : js string) (s : App) : App :=
  {| socketRef := socketRef s; socketReady := socketReady s; showStartModal := showStartModal s;
     bingoCards := bingoCards s; selectedCardIndex := selectedCardIndex s; currentWord := currentWord s;
     showLoadModal := showLoadModal s; manualInput := manualInput s; manualCardId := manualCardId s;
     isTransmitting := isTransmitting s; userName := userName s; currentLanguage := v;
     playerCount := playerCount s; gameStarted := gameStarted s; showWinnersModal := showWinnersModal s;
     winners := winners s; showRoundWinnersModal := showRoundWinnersModal s; roundWinners := roundWinners s;
     roundLanguage := roundLanguage s; sent := sent s; tasks := tasks s |}.

Definition setPlayerCount (v : js nat) (s : App) : App :=
  {| socketRef := socketRef s; socketReady := socketReady s; showStartModal := showStartModal s;
     bingoCards := bingoCards s; selectedCardIndex := selectedCardIndex s; currentWord := currentWord s;
     showLoadModal := showLoadModal s; manualInput := manualInput s; manualCardId := manualCardId s;
     isTransmitting := isTransmitting s; userName := userName s; currentLanguage := currentLanguage s;
     playerCount := v; gameStarted := gameStarted s; showWinnersModal := showWinnersModal s;
     winners := winners s; showRoundWinnersModal := showRoundWinnersModal s; roundWinners := roundWinners s;
     roundLanguage := roundLanguage s; sent := sent s; tasks := tasks s |}.

Definition setGameStarted (v : bool) (s : App) : App :=
  {| socketRef := socketRef s; socketReady := socketReady s; showStartModal := showStartModal s;
     bingoCards := bingoCards s; selectedCardIndex := selectedCardIndex s; currentWord := currentWord s;
     showLoadModal := showLoadModal s; manualInput := manualInput s; manualCardId := manualCardId s;
     isTransmitting := isTransmitting s; userName := userName s; currentLanguage := currentLanguage s;
     playerCount := playerCount s; gameStarted := v; showWinnersModal := showWinnersModal s;
     winners := winners s; showRoundWinnersModal := showRoundWinnersModal s; roundWinners := roundWinners s;
     roundLanguage := roundLanguage s; sent := sent s; tasks := tasks s |}.

Definition setShowWinnersModal (v : bool) (s : App) : App :=
  {| socketRef := socketRef s; socketReady := socketReady s; showStartModal := showStartModal s;
     bingoCards := bingoCards s; selectedCardIndex := selectedCardIndex s; currentWord := currentWord s;
     showLoadModal := showLoadModal s; manualInput := manualInput s; manualCardId := manualCardId s;
     isTransmitting := isTransmitting s; userName := userName s; currentLanguage := currentLanguage s;
     playerCount := playerCount s; gameStarted := gameStarted s; showWinnersModal := v;
     winners := winners s; showRoundWinnersModal := showRoundWinnersModal s; roundWinners := roundWinners s;
     roundLanguage := roundLanguage s; sent := sent s; tasks := tasks s |}.

Definition setWinners (v : js (list string)) (s : App) : App :=
  {| socketRef := socketRef s; socketReady := socketReady s; showStartModal := showStartModal s;
     bingoCards := bingoCards s; selectedCardIndex := selectedCardIndex s; currentWord := currentWord s;
     showLoadModal := showLoadModal s; manualInput := manualInput s; manualCardId := manualCardId s;
     isTransmitting := isTransmitting s; userName := userName s; currentLanguage := currentLanguage s;
     playerCount := playerCount s; gameStarted := gameStarted s; showWinnersModal := showWinnersModal s;
     winners := v; showRoundWinnersModal := showRoundWinnersModal s; roundWinners := roundWinners s;
     roundLanguage := roundLanguage s; sent := sent s; tasks := tasks s |}.

Definition setShowRoundWinnersModal (v : bool) (s : App) : App :=
  {| socketRef := socketRef s; socketReady := socketReady s; showStartModal := showStartModal s;
     bingoCards := bingoCards s; selectedCardIndex := selectedCardIndex s; currentWord := currentWord s;
     showLoadModal := showLoadModal s; manualInput := manualInput s; manualCardId := manualCardId s;
     isTransmitting := isTransmitting s; userName := userName s; currentLanguage := currentLanguage s;
     playerCount := playerCount s; gameStarted := gameStarted s; showWinnersModal := showWinnersModal s;
     winners := winners s; showRoundWinnersModal := v; roundWinners := roundWinners s;
     roundLanguage := roundLanguage s; sent := sent s; tasks := tasks s |}.

Definition setRoundWinners (v : js (list string)) (s : App) : App :=
  {| socketRef := socketRef s; socketReady := socketReady s; showStartModal := showStartModal s;
     bingoCards := bingoCards s; selectedCardIndex := selectedCardIndex s; currentWord := currentWord s;
     showLoadModal := showLoadModal s; manualInput := manualInput s; manualCardId := manualCardId s;
     isTransmitting := isTransmitting s; userName := userName s; currentLanguage := currentLanguage s;
     playerCount := playerCount s; gameStarted := gameStarted s; showWinnersModal := showWinnersModal s;
     winners := winners s; showRoundWinnersModal := showRoundWinnersModal s; roundWinners := v;
     roundLanguage := roundLanguage s; sent := sent s; tasks := tasks s |}.

Definition setRoundLanguage (v : js string) (s : App) : App :=
  {| socketRef := socketRef s; socketReady := socketReady s; showStartModal := showStartModal s;
     bingoCards := bingoCards s; selectedCardIndex := selectedCardIndex s; currentWord := currentWord s;
     showLoadModal := showLoadModal s; manualInput := manualInput s; manualCardId := manualCardId s;
     isTransmitting := isTransmitting s; userName := userName s; currentLanguage := currentLanguage s;
     playerCount := playerCount s; gameStarted := gameStarted s; showWinnersModal := showWinnersModal s;
     winners := winners s; showRoundWinnersModal := showRoundWinnersModal s; roundWinners := roundWinners s;
     roundLanguage := v; sent := sent s; tasks := tasks s |}.

Definition setSent (v : list json) (s : App) : App :=
  {| socketRef := socketRef s; socketReady := socketReady s; showStartModal := showStartModal s;
     bingoCards := bingoCards s; selectedCardIndex := selectedCardIndex s; currentWord := currentWord s;
     showLoadModal := showLoadModal s; manualInput := manualInput s; manualCardId := manualCardId s;
     isTransmitting := isTransmitting s; userName := userName s; currentLanguage := currentLanguage s;
     playerCount := playerCount s; gameStarted := gameStarted s; showWinnersModal := showWinnersModal s;
     winners := winners s; showRoundWinnersModal := showRoundWinnersModal s; roundWinners := roundWinners s;
     roundLanguage := roundLanguage s; sent := v; tasks := tasks s |}.

Definition setTasks (v : list Task) (s : App) : App :=
  {| socketRef := socketRef s; socketReady := socketReady s; showStartModal := showStartModal s;
     bingoCards := bingoCards s; selectedCardIndex := selectedCardIndex s; currentWord := currentWord s;
     showLoadModal := showLoadModal s; manualInput := manualInput s; manualCardId := manualCardId s;
     isTransmitting := isTransmitting s; userName := userName s; currentLanguage := currentLanguage s;
     playerCount := playerCount s; gameStarted := gameStarted s; showWinnersModal := showWinnersModal s;
     winners := winners s; showRoundWinnersModal := showRoundWinnersModal s; roundWinners := roundWinners s;
     roundLanguage := roundLanguage s; sent := sent s; tasks := v |}.

(** [useState] initial values; no socket yet, nothing sent, nothing pending. *)
Definition initial : App :=
  {| socketRef := None; socketReady := false; showStartModal := true;
     bingoCards := []; selectedCardIndex := 0; currentWord := Some "";
     showLoadModal := false; manualInput := ""; manualCardId := "";
     isTransmitting := false; userName := ""; currentLanguage := Some "";
     playerCount := Some 0; gameStarted := false; showWinnersModal := false;
     winners := None; showRoundWinnersModal := false; roundWinners := None;
     roundLanguage := Some ""; sent := []; tasks := [] |}.

(** [setTimeout(callback, _)]: the callback joins the pending ones. *)
Definition setTimeout (t : Task) (s : App) : App :=
  setTasks (tasks s ++ [t]) s.

(** ** Event reconciler *)

(** The [prevCards.map] callback of the [word_selected] case.  An
    [undefined] word is in no card's [words]. *)
Definition mark_card (data : Data) (card : Card) : Card :=
  match data_card_ids data, data_word data with
  | Some card_ids, Some word =>
      if includes card_ids (card_id card) && includes (card_words card) word then
        if negb (includes (markedWords card) word)
        then with_markedWords (markedWords card ++ [word]) card
        else card
      else card
  | _, _ => card
  end.

(** The four [let] variables of the selection callback. *)
Record Best := mkBest {
  maxMarked : nat;
  bestIndex : nat;
  maxMarkedForLanguage : nat;
  bestIndexForLanguage : nat
}.

(** [card.language === data.language] *)
Definition language_eq (l : string) (language : js string) : bool :=
  match language with
  | Some x => String.eqb l x
  | None => false
  end.

(** The [updated.forEach] callback. *)
Definition select_visit (language : js string) (acc : Best)
           (index : nat) (card : Card) : Best :=
  let markedCount := length (markedWords card) in
  let acc1 :=
    if maxMarked acc <? markedCount
    then {| maxMarked := markedCount; bestIndex := index;
            maxMarkedForLanguage := maxMarkedForLanguage acc;
            bestIndexForLanguage := bestIndexForLanguage acc |}
    else acc in
  if language_eq (card_language card) language
     && (maxMarkedForLanguage acc1 <? markedCount)
  then {| maxMarked := maxMarked acc1; bestIndex := bestIndex acc1;
          maxMarkedForLanguage := markedCount;
          bestIndexForLanguage := index |}
  else acc1.

Fixpoint forEach_select (language : js string) (index : nat)
         (cards : list Card) (acc : Best) : Best :=
  match cards with
  | [] => acc
  | card :: rest =>
      forEach_select language (S index) rest (select_visit language acc index card)
  end.

(** The argument of [setSelectedCardIndex] in the selection callback. *)
Definition select_best (updated : list Card) (language : js string) : nat :=
  let acc := forEach_select language 0 updated
               {| maxMarked := 0; bestIndex := 0;
                  maxMarkedForLanguage := 0; bestIndexForLanguage := 0 |} in
  if 0 <? maxMarkedForLanguage acc then bestIndexForLanguage acc else bestIndex acc.

Definition handleWebSocketMessage (data : Data) (s : App) : App :=
  let t := data_type data in
  if String.eqb t "player_count" then setPlayerCount (data_count data) s
  else if String.eqb t "game_started" then setGameStarted true s
  else if String.eqb t "round_start" then setCurrentLanguage (data_language data) s
  else if String.eqb t "word_selected" then
    let s1 := setCurrentWord (data_word data) s in
    let updated := map (mark_card data) (bingoCards s1) in
    setBingoCards updated
      (setTimeout (SelectTimer updated (data_language data)) s1)
  else if String.eqb t "round_end" then
    let s1 := setCurrentWord (Some "") s in
    let s2 :=
      match data_winners data with
      | Some w =>
          if 0 <? length w
          then setShowRoundWinnersModal true
                 (setRoundLanguage (data_language data)
                    (setRoundWinners (Some w) s1))
          else s1
      | None => s1
      end in
    setCurrentLanguage (Some "") s2
  else if String.eqb t "game_end" then
    setShowWinnersModal true (setWinners (data_winners data) s)
  else s.

(** ** Transmission sequencer *)

Definition sendBingoCard (card : Card) (s : App) : App :=
  match socketRef s with
  | Some OPEN => setSent (sent s ++ [bingo_card_frame card]) s
  | _ => s
  end.

(** [arr.findIndex(p)]; [None] is -1. *)
Fixpoint findIndex (p : Card -> bool) (cards : list Card) : option nat :=
  match cards with
  | [] => None
  | c :: rest => if p c then Some 0 else option_map S (findIndex p rest)
  end.

Definition untransmitted (card : Card) : bool := negb (transmitted card).

Definition transmitNextCard (s : App) : App :=
  let prevCards := bingoCards s in
  match findIndex untransmitted prevCards with
  | None => setIsTransmitting false s
  | Some untransmittedIndex =>
      match prevCards !! untransmittedIndex with
      | None => s (* findIndex returns an index of the array *)
      | Some card =>
          let s1 := sendBingoCard card s in
          let updatedCards :=
            imap (fun idx c => if idx =? untransmittedIndex
                               then with_transmitted c else c) prevCards in
          setBingoCards updatedCards (setTimeout (TransmitTimer updatedCards) s1)
      end
  end.

(** The effect with dependency [bingoCards.length] that starts the loop. *)
Definition transmission_effect (s : App) : App :=
  if length (bingoCards s) =? 0 then s
  else
    let hasUntransmitted := existsb untransmitted (bingoCards s) in
    if hasUntransmitted && negb (isTransmitting s)
    then transmitNextCard (setIsTransmitting true s)
    else s.

(** The effect with dependencies [showStartModal, bingoCards.length]. *)
Definition load_modal_effect (s : App) : App :=
  if negb (showStartModal s) && (length (bingoCards s) =? 0)
  then setShowLoadModal true s
  else s.

(** [setBingoCards(value)] from an event handler, applied after the
    handler's other updates: the effects that depend on [bingoCards.length]
    run when the length has changed. *)
Definition commit_bingoCards (value : list Card) (s : App) : App :=
  let s' := setBingoCards value s in
  if length value =? length (bingoCards s) then s'
  else transmission_effect (load_modal_effect s').

(** ** Loading cards *)

Definition handleManualSubmit (s : App) : App :=
  if negb (truthy (trim (manualCardId s))) || negb (truthy (trim (manualInput s)))
  then s
  else
    let words := List.filter truthy (map trim (split_lines (manualInput s))) in
    if length words =? 0 then s
    else
      let language := detectLanguage (length words) in
      let card := {| card_id := trim (manualCardId s); card_words := words;
                     card_language := language; transmitted := false;
                     markedWords := [] |} in
      commit_bingoCards (bingoCards s ++ [card])
        (setShowLoadModal false (setManualCardId "" (setManualInput "" s))).

(** [handleFileUpload]: the reader's callback keeps the [bingoCards] of the
    render in which the file was chosen. *)
Definition handleFileUpload (file : option string) (s : App) : App :=
  match file with
  | None => s
  | Some content =>
      (* reader.onload = ...; reader.readAsText(file) *)
      setTasks (tasks s ++ [ReaderOnload (bingoCards s) content]) s
  end.

Definition reader_onload (bingoCards : list Card) (content : string)
           (s : App) : App :=
  let newCards := parseTxtFile content in
  if 0 <? length newCards
  then commit_bingoCards (bingoCards ++ newCards) (setShowLoadModal false s)
  else s.

(** The callback of the 100 ms timer of [transmitNextCard]. *)
Definition transmit_timer (updatedCards : list Card) (s : App) : App :=
  let hasMoreUntransmitted := existsb untransmitted updatedCards in
  if hasMoreUntransmitted then transmitNextCard s
  else setIsTransmitting false s.

Definition run_task (t : Task) (s : App) : App :=
  match t with
  | SelectTimer updated language =>
      setSelectedCardIndex (select_best updated language) s
  | TransmitTimer updatedCards => transmit_timer updatedCards s
  | ReaderOnload bingoCards content => reader_onload bingoCards content s
  end.

(** The [n]-th pending callback runs. *)
Definition fire (n : nat) (s : App) : App :=
  match tasks s !! n with
  | None => s
  | Some t => run_task t (setTasks (delete n (tasks s)) s)
  end.

(** ** Session *)

Definition setupWebSocket (s : App) : App :=
  match socketRef s with
  | Some _ => s
  | None => setSocketRef (Some CONNECTING) s
  end.

(** [registerUser]; the name that [socket.onopen] captures is [userName]. *)
Definition registerUser (name : string) (s : App) : App :=
  if negb (truthy name) then s
  else load_modal_effect
         (setShowStartModal false (setupWebSocket (setUserName name s))).

Definition handlePlay (s : App) : App :=
  match socketRef s with
  | Some OPEN => setSent (sent s ++ [play_frame]) s
  | _ => s
  end.

Definition transmittedCount (s : App) : nat :=
  length (List.filter transmitted (bingoCards s)).

(** What happens to the page: user input, socket events, and pending
    callbacks that fire.  A control acts only while it is rendered. *)
Inductive Action :=
| SubmitName (name : string)
| SocketOpened
| SocketErrored
| SocketClosed
| SocketMessage (payload : option Data)
| Callback (n : nat)
| ClickPlay
| ClickDisconnect
| ClickCard (index : nat)
| OpenLoadModal
| CloseLoadModal
| TypeCardId (value : string)
| TypeWords (value : string)
| ClickAddCard
| ChooseFile (file : option string)
| ClickContinue.

Definition step (s : App) (a : Action) : App :=
  match a with
  | SubmitName name => if showStartModal s then registerUser name s else s
  | SocketOpened =>
      match socketRef s with
      | Some CONNECTING =>
          setSent (sent s ++ [register_frame (userName s)])
            (setSocketReady true (setSocketRef (Some OPEN) s))
      | _ => s
      end
  | SocketErrored =>
      (* the browser closes the socket before it reports the error *)
      match socketRef s with
      | Some _ => setSocketReady false (setSocketRef (Some CLOSED) s)
      | None => s
      end
  | SocketClosed =>
      match socketRef s with
      | Some _ => initial (* window.location.reload() *)
      | None => s
      end
  | SocketMessage payload =>
      match socketRef s, payload with
      | Some OPEN, Some data => handleWebSocketMessage data s
      | _, _ => s (* JSON.parse threw and was caught, or no open socket *)
      end
  | Callback n => fire n s
  | ClickPlay =>
      if negb (showStartModal s) && negb (length (bingoCards s) =? 0)
         && negb (gameStarted s)
         && negb (transmittedCount s <? length (bingoCards s))
      then handlePlay s else s
  | ClickDisconnect =>
      if negb (showStartModal s) then initial else s
  | ClickCard index =>
      if negb (showStartModal s) && (index <? length (bingoCards s))
      then setSelectedCardIndex index s else s
  | OpenLoadModal =>
      if negb (showStartModal s) && negb (gameStarted s)
      then setShowLoadModal true s else s
  | CloseLoadModal => if showLoadModal s then setShowLoadModal false s else s
  | TypeCardId value => if showLoadModal s then setManualCardId value s else s
  | TypeWords value => if showLoadModal s then setManualInput value s else s
  | ClickAddCard => if showLoadModal s then handleManualSubmit s else s
  | ChooseFile file => if showLoadModal s then handleFileUpload file s else s
  | ClickContinue =>
      match showRoundWinnersModal s, roundWinners s with
      | true, Some _ =>
          setRoundLanguage (Some "")
            (setRoundWinners None (setShowRoundWinnersModal false s))
      | _, _ => s
      end
  end.

(** The state after a sequence of actions. *)
Definition run (s : App) (acts : list Action) : App := fold_left step acts s.

(** The [bingo_card] frames sent so far, oldest first. *)
Definition bingo_card_sends (s : App) : list json :=
  List.filter is_bingo_card_frame (sent s).

(** ** Channel endpoint *)

(** [s.startsWith(pat)] *)
Fixpoint startsWith (pat s : string) : bool :=
  match pat, s with
  | EmptyString, _ => true
  | String a pat', String b s' => Ascii.eqb a b && startsWith pat' s'
  | String _ _, EmptyString => false
  end.

(** [s.slice(n)] *)
Fixpoint slice (n : nat) (s : string) : string :=
  match n, s with
  | 0, _ => s
  | S n', String _ s' => slice n' s'
  | S _, EmptyString => EmptyString
  end.

(** [s.replace(pat, rep)] for a string pattern and a replacement without
    [$]: the first occurrence of [pat] is replaced. *)
Fixpoint replace (pat rep s : string) : string :=
  if startsWith pat s then (rep ++ slice (String.length pat) s)%string
  else match s with
       | EmptyString => EmptyString
       | String c s' => String c (replace pat rep s')
       end.

(** The parts of [window.location] that the module reads. *)
Record Location := { protocol : string; host : string; origin : string }.

(** [import.meta.env.VITE_SERVER_URL || window.location.origin] *)
Definition SERVER_URL (VITE_SERVER_URL : js string) (location : Location) : string :=
  match VITE_SERVER_URL with
  | Some v => if truthy v then v else origin location
  | None => origin location
  end.

Definition getWebSocketUrl (VITE_SERVER_URL : js string) (location : Location)
           (userId : string) : string :=
  let server := SERVER_URL VITE_SERVER_URL location in
  let wsUrl :=
    if startsWith "http://" server then replace "http://" "ws://" server
    else if startsWith "https://" server then replace "https://" "wss://" server
    else
      let protocol := if String.eqb (protocol location) "https:"
                      then "wss:" else "ws:" in
      (protocol ++ "//"
         ++ (if truthy server then server else host location))%string in
  (wsUrl ++ "/ws/" ++ userId)%string.

(** ** Card grid *)

(** [LANGUAGE_CONFIGS[language]] for a key among the declared ones. *)
Fixpoint config_lookup (entries : list (string * LanguageConfig))
         (language : string) : option LanguageConfig :=
  match entries with
  | [] => None
  | (lang, config) :: rest =>
      if String.eqb lang language then Some config
      else config_lookup rest language
  end.

(** The header and the cells that [BingoCardGrid] renders for a card: the
    counter [markedWords.length/card.words.length] and, for each word in
    order, whether [markedWords.includes(word)]. *)
Definition grid_counter (card : Card) : nat * nat :=
  (length (markedWords card), length (card_words card)).

Definition grid_cells (card : Card) : list (string * bool) :=
  map (fun word => (word, includes (markedWords card) word)) (card_words card).

(** * Properties *)

(** ** File import *)

Example parseTxtFile_one_line :
  parseTxtFile "c1 SOL LUNA MAR" =
  [ {| card_id := "c1"; card_words := ["SOL"; "LUNA"; "MAR"];
       card_language := "spanish"; transmitted := false; markedWords := [] |} ].
Proof. reflexivity. Qed.

(** ** Arrays of strings *)

Lemma includes_In (arr : list string) (x : string) :
  includes arr x = true <-> In x arr.
Proof.
  unfold includes. rewrite existsb_exists. split.
  - intros [y [Hy Heq]]. apply String.eqb_eq in Heq. now subst.
  - intros H. exists x. split; [assumption | apply String.eqb_refl].
Qed.

Lemma includes_not_In (arr : list string) (x : string) :
  includes arr x = false <-> ~ In x arr.
Proof.
  rewrite <- includes_In. destruct (includes arr x); split; congruence.
Qed.

Lemma includes_app_last (arr : list string) (x : string) :
  includes (arr ++ [x]) x = true.
Proof. apply includes_In, in_or_app. right. now left. Qed.

(** ** Marking one card *)

Section Marking.

Variable data : Data.
Variable card_ids : list string.
Variable word : string.
Hypothesis Hids : data_card_ids data = Some card_ids.
Hypothesis Hword : data_word data = Some word.

Lemma mark_card_hit (card : Card) :
  In (card_id card) card_ids -> In word (card_words card) ->
  ~ In word (markedWords card) ->
  mark_card data card = with_markedWords (markedWords card ++ [word]) card.
Proof using Hids Hword.
  intros Hid Hw Hm. unfold mark_card. rewrite Hids, Hword.
  apply includes_In in Hid. apply includes_In in Hw.
  apply includes_not_In in Hm. now rewrite Hid, Hw, Hm.
Qed.

Lemma mark_card_miss (card : Card) :
  ~ (In (card_id card) card_ids /\ In word (card_words card)
     /\ ~ In word (markedWords card)) ->
  mark_card data card = card.
Proof using Hids Hword.
  intros Hn. unfold mark_card. rewrite Hids, Hword.
  destruct (includes card_ids (card_id card)) eqn:E1; simpl; [|reflexivity].
  destruct (includes (card_words card) word) eqn:E2; simpl; [|reflexivity].
  destruct (includes (markedWords card) word) eqn:E3; simpl; [reflexivity|].
  exfalso. apply Hn. repeat split.
  - now apply includes_In.
  - now apply includes_In.
  - now apply includes_not_In.
Qed.

End Marking.

Lemma mark_card_no_ids (data : Data) (card : Card) :
  data_card_ids data = None -> mark_card data card = card.
Proof. intros H. unfold mark_card. now rewrite H. Qed.

(** A card keeps its identity, words, language and flag when marked. *)
Lemma mark_card_fields (data : Data) (card : Card) :
  card_id (mark_card data card) = card_id card
  /\ card_words (mark_card data card) = card_words card
  /\ card_language (mark_card data card) = card_language card
  /\ transmitted (mark_card data card) = transmitted card.
Proof.
  unfold mark_card.
  destruct (data_card_ids data), (data_word data); auto.
  destruct (_ && _); auto. destruct (negb _); auto.
Qed.

Lemma mark_card_twice (data : Data) (card : Card) :
  mark_card data (mark_card data card) = mark_card data card.
Proof.
  destruct (data_card_ids data) as [ids|] eqn:Hi;
    [| now rewrite !mark_card_no_ids].
  destruct (data_word data) as [w|] eqn:Hw;
    [| unfold mark_card; now rewrite Hi, Hw].
  assert (Hstay : forall c, includes (markedWords c) w = true ->
                            mark_card data c = c).
  { intros c Hc. unfold mark_card. rewrite Hi, Hw, Hc. simpl.
    destruct (includes ids (card_id c) && includes (card_words c) w);
      reflexivity. }
  destruct (includes ids (card_id card) && includes (card_words card) w) eqn:E.
  - destruct (includes (markedWords card) w) eqn:E3.
    + rewrite (Hstay card E3). exact (Hstay card E3).
    + assert (Hm : mark_card data card
                   = with_markedWords (markedWords card ++ [w]) card).
      { unfold mark_card. now rewrite Hi, Hw, E, E3. }
      rewrite Hm. apply Hstay. simpl. apply includes_app_last.
  - assert (Hm : mark_card data card = card).
    { unfold mark_card. now rewrite Hi, Hw, E. }
    now rewrite !Hm.
Qed.

Lemma mark_card_count (data : Data) (card : Card) (w : string) :
  count_occ string_dec (markedWords (mark_card data card)) w
  <= Nat.max 1 (count_occ string_dec (markedWords card) w).
Proof.
  unfold mark_card.
  destruct (data_card_ids data) as [ids|]; [|lia].
  destruct (data_word data) as [w0|]; [|lia].
  destruct (_ && _); [|lia].
  destruct (includes (markedWords card) w0) eqn:E; simpl; [lia|].
  rewrite count_occ_app. simpl.
  destruct (string_dec w0 w) as [->|Hne]; [|lia].
  apply includes_not_In in E.
  apply (count_occ_not_In string_dec) in E. lia.
Qed.

Lemma mark_card_incl (data : Data) (card : Card) :
  incl (markedWords card) (card_words card) ->
  incl (markedWords (mark_card data card)) (card_words (mark_card data card)).
Proof.
  intros H. unfold mark_card.
  destruct (data_card_ids data) as [ids|]; [|assumption].
  destruct (data_word data) as [w0|]; [|assumption].
  destruct (includes ids (card_id card)); simpl; [|assumption].
  destruct (includes (card_words card) w0) eqn:E; simpl; [|assumption].
  destruct (negb _); [|assumption]. simpl.
  apply incl_app; [assumption|].
  intros x [<-|[]]. now apply includes_In.
Qed.

Lemma lookup_map {A B : Type} (f : A -> B) (l : list A) (i : nat) :
  map f l !! i = option_map f (l !! i).
Proof.
  revert i. induction l as [|x l IH]; intros [|i]; simpl; auto.
Qed.

(** ** The [word_selected] case *)

Lemma handle_word_selected (data : Data) (s : App) :
  data_type data = "word_selected" ->
  handleWebSocketMessage data s =
  setBingoCards (map (mark_card data) (bingoCards s))
    (setTimeout (SelectTimer (map (mark_card data) (bingoCards s))
                             (data_language data))
       (setCurrentWord (data_word data) s)).
Proof. intros H. unfold handleWebSocketMessage. rewrite H. reflexivity. Qed.

(** C4.  A [word_selected] event with word [word] and target list
    [card_ids] sets [currentWord] to [word]; the store keeps its length and
    order.  When the id of the card at a position is in [card_ids], [word]
    is among its words and [word] is not yet marked, the card at that
    position afterwards has [word] in its [markedWords], which are the
    former ones followed by [word], and the same id, words, language and
    flag.  In every other case, in particular when the id is not targeted
    or the words lack [word], the card at that position is the very same
    card. *)
Theorem word_selected_marks (data : Data) (word : string)
        (card_ids : list string) (s : App) :
  data_type data = "word_selected" ->
  data_word data = Some word ->
  data_card_ids data = Some card_ids ->
  let s' := handleWebSocketMessage data s in
  currentWord s' = Some word
  /\ length (bingoCards s') = length (bingoCards s)
  /\ forall (i : nat) (card : Card),
       bingoCards s !! i = Some card ->
       (In (card_id card) card_ids /\ In word (card_words card)
        /\ ~ In word (markedWords card) ->
        exists card' : Card,
          bingoCards s' !! i = Some card'
          /\ In word (markedWords card')
          /\ markedWords card' = markedWords card ++ [word]
          /\ card_id card' = card_id card
          /\ card_words card' = card_words card
          /\ card_language card' = card_language card
          /\ transmitted card' = transmitted card)
       /\ (~ (In (card_id card) card_ids /\ In word (card_words card)
              /\ ~ In word (markedWords card)) ->
           bingoCards s' !! i = Some card)
       /\ (~ In (card_id card) card_ids \/ ~ In word (card_words card) ->
           bingoCards s' !! i = Some card).
Proof.
  intros Ht Hw Hi s'. subst s'. rewrite (handle_word_selected data s Ht).
  simpl. split; [assumption|]. split; [apply length_map|].
  intros i card Hc. rewrite lookup_map, Hc. simpl.
  split; [|split].
  - intros [H1 [H2 H3]]. exists (mark_card data card).
    split; [reflexivity|].
    rewrite (mark_card_hit data card_ids word Hi Hw card H1 H2 H3). simpl.
    split; [apply in_or_app; right; now left|]. now repeat split.
  - intros Hn. f_equal. now apply (mark_card_miss data card_ids word).
  - intros Hn. f_equal. apply (mark_card_miss data card_ids word); try assumption.
    intros [H1 [H2 _]]. destruct Hn as [Hn|Hn]; now apply Hn.
Qed.

Definition card_c1 : Card :=
  {| card_id := "c1"; card_words := ["SOL"; "LUNA"; "MAR"];
     card_language := "spanish"; transmitted := true; markedWords := [] |}.

Definition card_c2 : Card :=
  {| card_id := "c2"; card_words := ["HOND"; "KAT"];
     card_language := "dutch"; transmitted := true; markedWords := [] |}.

Definition sol_for_c1 : Data :=
  {| data_type := "word_selected"; data_count := None; data_language := None;
     data_word := Some "SOL"; data_card_ids := Some ["c1"];
     data_winners := None |}.

Lemma word_selected_marks_witness :
  let s := setBingoCards [card_c1; card_c2] initial in
  let s' := handleWebSocketMessage sol_for_c1 s in
  currentWord s' = Some "SOL"
  /\ (exists card' : Card,
        bingoCards s' !! 0 = Some card'
        /\ In "SOL" (markedWords card')
        /\ markedWords card' = ["SOL"]
        /\ card_id card' = "c1")
  /\ bingoCards s' !! 1 = Some card_c2.
Proof.
  intros s s'.
  destruct (word_selected_marks sol_for_c1 "SOL" ["c1"] s
              eq_refl eq_refl eq_refl) as [Hw [_ Hcards]].
  split; [exact Hw|]. split.
  - destruct (proj1 (Hcards 0 card_c1 eq_refl)) as [c' [H1 [H2 [H3 [H4 _]]]]].
    + simpl. intuition congruence.
    + exists c'. repeat split; assumption.
  - apply (Hcards 1 card_c2 eq_refl). left. simpl. intuition congruence.
Defined.

(** C10.  A [word_selected] event without a [card_ids] field sets
    [currentWord] to the event's word and leaves the store, card by card and
    field by field, as it was. *)
Theorem word_selected_without_card_ids (data : Data) (s : App) :
  data_type data = "word_selected" ->
  data_card_ids data = None ->
  let s' := handleWebSocketMessage data s in
  currentWord s' = data_word data
  /\ bingoCards s' = bingoCards s.
Proof.
  intros Ht Hi s'. subst s'. rewrite (handle_word_selected data s Ht). simpl.
  split; [reflexivity|].
  induction (bingoCards s) as [|c l IH]; simpl; [reflexivity|].
  now rewrite IH, (mark_card_no_ids data c Hi).
Qed.

Definition sol_without_ids : Data :=
  {| data_type := "word_selected"; data_count := None; data_language := None;
     data_word := Some "SOL"; data_card_ids := None; data_winners := None |}.

Lemma word_selected_without_card_ids_witness :
  let s := setBingoCards [card_c1; card_c2] initial in
  let s' := handleWebSocketMessage sol_without_ids s in
  currentWord s' = Some "SOL" /\ bingoCards s' = [card_c1; card_c2].
Proof.
  intros s s'.
  exact (word_selected_without_card_ids sol_without_ids s eq_refl eq_refl).
Defined.

(** C5.  Handling the same [word_selected] event a second time leaves the
    store exactly as the first handling left it, and one handling never
    raises the number of occurrences of a word in a card's [markedWords]
    above one unless it was already there. *)
Theorem marking_idempotent (data : Data) (s : App) :
  data_type data = "word_selected" ->
  let once := handleWebSocketMessage data s in
  let twice := handleWebSocketMessage data once in
  bingoCards twice = bingoCards once
  /\ map markedWords (bingoCards twice) = map markedWords (bingoCards once)
  /\ Forall2 (fun before after =>
                forall w : string,
                  count_occ string_dec (markedWords after) w
                  <= Nat.max 1 (count_occ string_dec (markedWords before) w))
             (bingoCards s) (bingoCards once).
Proof.
  intros Ht once twice. subst twice once.
  rewrite !(handle_word_selected data _ Ht). simpl.
  assert (Heq : map (mark_card data) (map (mark_card data) (bingoCards s))
                = map (mark_card data) (bingoCards s)).
  { rewrite map_map. apply map_ext. intros c. apply mark_card_twice. }
  split; [exact Heq|]. split; [now rewrite Heq|]. clear Heq.
  induction (bingoCards s) as [|c l IH]; simpl; constructor.
  - intros w. apply mark_card_count.
  - exact IH.
Qed.

Lemma marking_idempotent_witness :
  let s := setBingoCards [card_c1; card_c2] initial in
  let once := handleWebSocketMessage sol_for_c1 s in
  let twice := handleWebSocketMessage sol_for_c1 once in
  bingoCards twice = bingoCards once
  /\ map markedWords (bingoCards twice) = [["SOL"]; []].
Proof.
  intros s once twice.
  destruct (marking_idempotent sol_for_c1 s eq_refl) as [H1 [H2 _]].
  split; [exact H1|]. etransitivity; [exact H2 | reflexivity].
Defined.

(** ** The [round_start] and [round_end] cases *)

(** C9.  A [round_start] event sets [currentLanguage] to the event's
    language and changes no other part of the state: [currentWord], the
    store, [playerCount], [gameStarted], the selected index, the modals, the
    winners, the socket, the frames sent and the pending callbacks are as
    before. *)
Theorem round_start_only_sets_language (data : Data) (s : App) :
  data_type data = "round_start" ->
  let s' := handleWebSocketMessage data s in
  currentLanguage s' = data_language data
  /\ currentWord s' = currentWord s
  /\ bingoCards s' = bingoCards s
  /\ playerCount s' = playerCount s
  /\ gameStarted s' = gameStarted s
  /\ selectedCardIndex s' = selectedCardIndex s
  /\ isTransmitting s' = isTransmitting s
  /\ (winners s', roundWinners s', roundLanguage s')
     = (winners s, roundWinners s, roundLanguage s)
  /\ (showStartModal s', showLoadModal s', showWinnersModal s',
      showRoundWinnersModal s')
     = (showStartModal s, showLoadModal s, showWinnersModal s,
        showRoundWinnersModal s)
  /\ (userName s', manualInput s', manualCardId s')
     = (userName s, manualInput s, manualCardId s)
  /\ (socketRef s', socketReady s', sent s', tasks s')
     = (socketRef s, socketReady s, sent s, tasks s).
Proof.
  intros Ht s'. subst s'. unfold handleWebSocketMessage. rewrite Ht.
  simpl. repeat split.
Qed.

Definition dutch_round_start : Data :=
  {| data_type := "round_start"; data_count := None;
     data_language := Some "dutch"; data_word := None;
     data_card_ids := None; data_winners := None |}.

Lemma round_start_only_sets_language_witness :
  let s := setCurrentWord (Some "SOL") (setBingoCards [card_c1; card_c2] initial) in
  let s' := handleWebSocketMessage dutch_round_start s in
  currentLanguage s' = Some "dutch"
  /\ currentWord s' = Some "SOL"
  /\ bingoCards s' = [card_c1; card_c2].
Proof.
  intros s s'.
  destruct (round_start_only_sets_language dutch_round_start s eq_refl)
    as [H1 [H2 [H3 _]]].
  repeat split; assumption.
Defined.

Definition hond_for_c1 : Data :=
  {| data_type := "word_selected"; data_count := None; data_language := None;
     data_word := Some "HOND"; data_card_ids := Some ["c1"];
     data_winners := None |}.

Definition dutch_round_end : Data :=
  {| data_type := "round_end"; data_count := None;
     data_language := Some "dutch"; data_word := None;
     data_card_ids := None; data_winners := Some ["Ana"] |}.

Lemma handle_round_end (data : Data) (s : App) :
  data_type data = "round_end" ->
  handleWebSocketMessage data s =
  setCurrentLanguage (Some "")
    match data_winners data with
    | Some w =>
        if 0 <? length w
        then setShowRoundWinnersModal true
               (setRoundLanguage (data_language data)
                  (setRoundWinners (Some w) (setCurrentWord (Some "") s)))
        else setCurrentWord (Some "") s
    | None => setCurrentWord (Some "") s
    end.
Proof. intros H. unfold handleWebSocketMessage. rewrite H. reflexivity. Qed.

(** C8.  A [round_end] event empties [currentWord] and [currentLanguage].
    When it carries a non-empty winners list, the round-winners notification
    is published: [roundWinners] is that list, [roundLanguage] the event's
    language, and the modal is shown; when the list is absent or empty these
    three are left as they were.  From any state, the events
    round_start(dutch), word_selected(HOND, [c1]), round_end([Ana], dutch)
    end with both fields empty and the notification [Ana] tagged dutch. *)
Theorem round_end_clears_and_publishes (data : Data) (s : App) :
  data_type data = "round_end" ->
  let s' := handleWebSocketMessage data s in
  currentWord s' = Some ""
  /\ currentLanguage s' = Some ""
  /\ match data_winners data with
     | Some (w :: ws) =>
         roundWinners s' = Some (w :: ws)
         /\ roundLanguage s' = data_language data
         /\ showRoundWinnersModal s' = true
     | _ =>
         roundWinners s' = roundWinners s
         /\ roundLanguage s' = roundLanguage s
         /\ showRoundWinnersModal s' = showRoundWinnersModal s
     end
  /\ let final :=
       handleWebSocketMessage dutch_round_end
         (handleWebSocketMessage hond_for_c1
            (handleWebSocketMessage dutch_round_start s)) in
     currentWord final = Some ""
     /\ currentLanguage final = Some ""
     /\ roundWinners final = Some ["Ana"]
     /\ roundLanguage final = Some "dutch"
     /\ showRoundWinnersModal final = true.
Proof.
  intros Ht s'. subst s'. rewrite (handle_round_end data s Ht).
  destruct (data_winners data) as [[|w ws]|]; cbv zeta; simpl; repeat split.
Qed.

Lemma round_end_clears_and_publishes_witness :
  let s := setBingoCards [card_c1; card_c2] initial in
  let s' := handleWebSocketMessage dutch_round_end s in
  currentWord s' = Some "" /\ currentLanguage s' = Some "".
Proof.
  intros s s'.
  destruct (round_end_clears_and_publishes dutch_round_end s eq_refl)
    as [H1 [H2 _]].
  split; assumption.
Defined.

(** ** The card submission frame *)

(** The frame as the sentence of the specification about the transmission
    sequencer words it: [{type: "bingo_card", id, words, language}]. *)
Definition flat_bingo_card_frame (card : Card) : json :=
  JObject [ ("type", JString "bingo_card");
            ("id", JString (card_id card));
            ("words", JArray (map JString (card_words card)));
            ("language", JString (card_language card)) ].

(** C7, as stated, fails: the frame sent for card c1 is not the flat object,
    and [id], [words] and [language] are not among its top-level fields. *)
Lemma frame_fields_not_top_level :
  let s := setSocketRef (Some OPEN) initial in
  let f := bingo_card_frame card_c1 in
  sent (sendBingoCard card_c1 s) = [f]
  /\ f <> flat_bingo_card_frame card_c1
  /\ keys f = ["type"; "card"]
  /\ member "id" f = None
  /\ member "words" f = None
  /\ member "language" f = None.
Proof.
  simpl. repeat split. discriminate.
Qed.

(** C7, amended.  On an open channel [sendBingoCard] sends one frame, the
    object with exactly the two top-level fields [type], equal to
    "bingo_card", and [card], an object holding the card's [id], [words] and
    [language]. *)
Theorem bingo_card_frame_nests_card (card : Card) (s : App) :
  socketRef s = Some OPEN ->
  let f := bingo_card_frame card in
  sent (sendBingoCard card s) = sent s ++ [f]
  /\ keys f = ["type"; "card"]
  /\ member "type" f = Some (JString "bingo_card")
  /\ member "card" f
     = Some (JObject [ ("id", JString (card_id card));
                       ("words", JArray (map JString (card_words card)));
                       ("language", JString (card_language card)) ]).
Proof.
  intros Hopen f. unfold sendBingoCard. rewrite Hopen. simpl.
  repeat split.
Qed.

Lemma bingo_card_frame_nests_card_witness :
  let s := setSocketRef (Some OPEN) initial in
  sent (sendBingoCard card_c1 s) = [bingo_card_frame card_c1]
  /\ member "card" (bingo_card_frame card_c1)
     = Some (JObject [ ("id", JString "c1");
                       ("words", JArray [JString "SOL"; JString "LUNA";
                                         JString "MAR"]);
                       ("language", JString "spanish") ]).
Proof.
  intros s.
  destruct (bingo_card_frame_nests_card card_c1 s eq_refl) as [H1 [_ [_ H4]]].
  split; [exact H1 | exact H4].
Defined.

(** ** Selection heuristic *)

Definition markedCount (card : Card) : nat := length (markedWords card).

(** [i] is the lowest index, among the cards accepted by [P], of a card with
    the largest [markedCount] among them. *)
Definition first_max_among (P : Card -> Prop) (cards : list Card) (i : nat) : Prop :=
  exists c, cards !! i = Some c /\ P c
    /\ forall j c', cards !! j = Some c' -> P c' ->
         markedCount c' <= markedCount c
         /\ (j < i -> markedCount c' < markedCount c).

Section Tracking.

Variable P : Card -> bool.

(** What a pair (maximum, index) of the loop knows after visiting [pre]. *)
Definition tracked (pre : list Card) (m b : nat) : Prop :=
  (m = 0 /\ b = 0
   /\ forall j c, pre !! j = Some c -> P c = true -> markedCount c = 0)
  \/ (0 < m
      /\ exists c, pre !! b = Some c /\ P c = true /\ markedCount c = m
         /\ forall j c', pre !! j = Some c' -> P c' = true ->
              markedCount c' <= m /\ (j < b -> markedCount c' < m)).

Lemma tracked_nil : tracked [] 0 0.
Proof. left. repeat split. intros j c H. destruct j; discriminate H. Qed.

Lemma lookup_snoc (pre : list Card) (c : Card) (j : nat) (c' : Card) :
  (pre ++ [c]) !! j = Some c' ->
  (j < length pre /\ pre !! j = Some c') \/ (j = length pre /\ c' = c).
Proof.
  intros H. destruct (lt_dec j (length pre)) as [Hlt|Hge].
  - left. split; [assumption|]. now rewrite lookup_app_l in H.
  - right. rewrite lookup_app_r in H by lia.
    destruct (j - length pre) as [|k] eqn:E; simpl in H.
    + split; [lia | congruence].
    + destruct k; discriminate H.
Qed.

Lemma tracked_step (pre : list Card) (m b : nat) (c : Card) :
  tracked pre m b ->
  tracked (pre ++ [c])
          (if P c && (m <? markedCount c) then markedCount c else m)
          (if P c && (m <? markedCount c) then length pre else b).
Proof.
  intros Ht.
  destruct (P c) eqn:HP; simpl.
  - destruct (Nat.ltb_spec m (markedCount c)) as [Hlt|Hge].
    + right. split; [lia|]. exists c. split.
      { rewrite lookup_app_r by lia. now rewrite Nat.sub_diag. }
      split; [assumption|]. split; [reflexivity|].
      intros j c' Hj HP'. apply lookup_snoc in Hj.
      destruct Hj as [[Hlt' Hj]|[-> ->]]; [|lia].
      destruct Ht as [[-> [_ Hz]]|[_ [c0 [_ [_ [_ Hmax]]]]]].
      * specialize (Hz j c' Hj HP'). lia.
      * destruct (Hmax j c' Hj HP') as [Hle _]. lia.
    + destruct Ht as [[-> [-> Hz]]|[Hpos [c0 [Hb [HP0 [Hm Hmax]]]]]].
      * left. repeat split. intros j c' Hj HP'. apply lookup_snoc in Hj.
        destruct Hj as [[_ Hj]|[_ ->]]; [now apply (Hz j)|lia].
      * right. split; [assumption|]. exists c0.
        split; [now apply lookup_app_l_Some|]. repeat split; try assumption.
        -- apply lookup_snoc in H. destruct H as [[_ Hj]|[_ ->]];
             [now apply (Hmax j)|lia].
        -- intros Hjb. apply lookup_snoc in H.
           apply lookup_lt_Some in Hb.
           destruct H as [[_ Hj]|[-> _]]; [now apply (Hmax j)|lia].
  - destruct Ht as [[-> [-> Hz]]|[Hpos [c0 [Hb [HP0 [Hm Hmax]]]]]].
    + left. repeat split. intros j c' Hj HP'. apply lookup_snoc in Hj.
      destruct Hj as [[_ Hj]|[_ ->]]; [now apply (Hz j)|congruence].
    + right. split; [assumption|]. exists c0.
      split; [now apply lookup_app_l_Some|]. repeat split; try assumption.
      * apply lookup_snoc in H. destruct H as [[_ Hj]|[_ ->]];
          [now apply (Hmax j)|congruence].
      * intros Hjb. apply lookup_snoc in H.
        destruct H as [[_ Hj]|[_ ->]]; [now apply (Hmax j)|congruence].
Qed.

End Tracking.

Definition any_card (c : Card) : bool := true.

Definition in_language (language : js string) (c : Card) : bool :=
  language_eq (card_language c) language.

Lemma select_visit_overall (language : js string) (acc : Best) (index : nat)
      (card : Card) :
  maxMarked (select_visit language acc index card)
  = (if any_card card && (maxMarked acc <? markedCount card)
     then markedCount card else maxMarked acc)
  /\ bestIndex (select_visit language acc index card)
     = (if any_card card && (maxMarked acc <? markedCount card)
        then index else bestIndex acc).
Proof.
  unfold select_visit, any_card, markedCount. simpl.
  destruct (maxMarked acc <? length (markedWords card));
    destruct (language_eq _ _ && _); simpl; split; reflexivity.
Qed.

Lemma select_visit_language (language : js string) (acc : Best) (index : nat)
      (card : Card) :
  maxMarkedForLanguage (select_visit language acc index card)
  = (if in_language language card
        && (maxMarkedForLanguage acc <? markedCount card)
     then markedCount card else maxMarkedForLanguage acc)
  /\ bestIndexForLanguage (select_visit language acc index card)
     = (if in_language language card
           && (maxMarkedForLanguage acc <? markedCount card)
        then index else bestIndexForLanguage acc).
Proof.
  unfold select_visit, in_language, markedCount.
  destruct (maxMarked acc <? length (markedWords card)); simpl;
    destruct (language_eq _ _ && _); simpl; split; reflexivity.
Qed.

Lemma forEach_select_tracked (language : js string) (rest pre : list Card)
      (acc : Best) :
  tracked any_card pre (maxMarked acc) (bestIndex acc) ->
  tracked (in_language language) pre
          (maxMarkedForLanguage acc) (bestIndexForLanguage acc) ->
  let acc' := forEach_select language (length pre) rest acc in
  tracked any_card (pre ++ rest) (maxMarked acc') (bestIndex acc')
  /\ tracked (in_language language) (pre ++ rest)
             (maxMarkedForLanguage acc') (bestIndexForLanguage acc').
Proof.
  revert pre acc. induction rest as [|card rest IH]; intros pre acc Ha Hl.
  - simpl. rewrite app_nil_r. now split.
  - simpl.
    destruct (select_visit_overall language acc (length pre) card) as [E1 E2].
    destruct (select_visit_language language acc (length pre) card) as [E3 E4].
    specialize (IH (pre ++ [card]) (select_visit language acc (length pre) card)).
    rewrite length_app, Nat.add_1_r, <- app_assoc in IH. simpl in IH.
    apply IH.
    + rewrite E1, E2. now apply tracked_step.
    + rewrite E3, E4. now apply tracked_step.
Qed.

(** What [select_best] returns, in terms of the cards it is given. *)
Lemma select_best_spec (updated : list Card) (language : js string) :
  let i := select_best updated language in
  ((exists c, In c updated /\ in_language language c = true
              /\ 0 < markedCount c) ->
   first_max_among (fun c => in_language language c = true) updated i)
  /\ ((forall c, In c updated -> in_language language c = true ->
                 markedCount c = 0) ->
      (updated = [] /\ i = 0)
      \/ first_max_among (fun _ => True) updated i).
Proof.
  intros i. subst i. unfold select_best.
  destruct (forEach_select_tracked language updated []
              {| maxMarked := 0; bestIndex := 0;
                 maxMarkedForLanguage := 0; bestIndexForLanguage := 0 |}
              (tracked_nil any_card) (tracked_nil (in_language language)))
    as [Hall Hlang].
  simpl in Hall, Hlang.
  set (acc := forEach_select language 0 updated _) in *.
  split.
  - intros [c [Hin [Hc Hpos]]].
    apply list_elem_of_In, list_elem_of_lookup in Hin. destruct Hin as [j Hj].
    destruct Hlang as [[Hm [_ Hz]]|[Hpos' [c0 [Hb [HP0 [Hm Hmax]]]]]].
    + specialize (Hz j c Hj Hc). lia.
    + apply Nat.ltb_lt in Hpos'. rewrite Hpos'.
      exists c0. rewrite Hm. repeat split; try assumption; now apply (Hmax j0).
  - intros Hzero.
    assert (Hm : maxMarkedForLanguage acc = 0).
    { destruct Hlang as [[Hm _]|[Hpos' [c0 [Hb [HP0 [Hm _]]]]]];
        [assumption|].
      apply list_elem_of_lookup_2, list_elem_of_In in Hb.
      specialize (Hzero c0 Hb HP0). lia. }
    rewrite Hm. simpl.
    destruct Hall as [[Hm0 [Hb0 Hz]]|[Hpos' [c0 [Hb [_ [Hmc Hmax]]]]]].
    + rewrite Hb0. destruct updated as [|c0 rest]; [now left|]. right.
      exists c0. repeat split.
      * rewrite (Hz j c' H eq_refl). lia.
      * lia.
    + right. exists c0. rewrite Hmc.
      repeat split; try assumption; now apply (Hmax j).
Qed.

Lemma fire_select_timer (n : nat) (updated : list Card) (language : js string)
      (s : App) :
  tasks s !! n = Some (SelectTimer updated language) ->
  selectedCardIndex (fire n s) = select_best updated language
  /\ bingoCards (fire n s) = bingoCards s.
Proof. intros H. unfold fire. rewrite H. simpl. now split. Qed.

Definition hond_for_both : Data :=
  {| data_type := "word_selected"; data_count := None; data_language := None;
     data_word := Some "HOND"; data_card_ids := Some ["c0"; "c1"];
     data_winners := None |}.

(** A session: card c0 with one word (classified spanish by default), card
    c1 with ten words (dutch), a dutch round, and HOND called for both. *)
Definition dutch_round_session : list Action :=
  [ SubmitName "Ana"; SocketOpened;
    TypeCardId "c0"; TypeWords "HOND"; ClickAddCard;
    Callback 0;
    OpenLoadModal; TypeCardId "c1";
    TypeWords "HOND
KAT
VIS
BOOM
HUIS
FIETS
KAAS
MELK
BROOD
ZON"; ClickAddCard;
    Callback 0;
    SocketMessage (Some dutch_round_start);
    SocketMessage (Some hond_for_both);
    Callback 0 ].

(** C2, at a failing input.  The round's language is dutch, cards 0
    (spanish) and 1 (dutch) both have one marked word, the [word_selected]
    event carries no language, and the index selected is 0, which is not the
    best card among those of the round's language: the card of the round's
    language, index 1, is not preferred. *)
Lemma selection_ignores_round_language :
  let s := run initial dutch_round_session in
  currentLanguage s = Some "dutch"
  /\ map card_language (bingoCards s) = ["spanish"; "dutch"]
  /\ map markedCount (bingoCards s) = [1; 1]
  /\ tasks s = []
  /\ selectedCardIndex s = 0
  /\ ~ first_max_among
       (fun c => in_language (currentLanguage s) c = true)
       (bingoCards s) (selectedCardIndex s).
Proof.
  vm_compute. repeat split.
  intros [c [Hc [Hl _]]]. injection Hc as <-. discriminate Hl.
Qed.

(** What the selection callback does with the language field of the
    event.  Handling a [word_selected] event schedules one selection over
    the store as it is after marking, tagged with the language field of the
    event itself.  When that callback runs, the index selected is: the
    lowest index of largest [markedCount] among the cards whose language
    equals the event's language field, if one of them has a marked word;
    otherwise (none of them has one, or the event has no language field) the
    lowest index of largest [markedCount] among all cards. *)
Theorem selection_prefers_event_language (data : Data) (s : App) :
  data_type data = "word_selected" ->
  let s1 := handleWebSocketMessage data s in
  let s2 := fire (length (tasks s)) s1 in
  let matches := fun c => in_language (data_language data) c = true in
  bingoCards s1 = map (mark_card data) (bingoCards s)
  /\ tasks s1 = tasks s ++ [SelectTimer (bingoCards s1) (data_language data)]
  /\ bingoCards s2 = bingoCards s1
  /\ ((exists c, In c (bingoCards s1) /\ matches c /\ 0 < markedCount c) ->
      first_max_among matches (bingoCards s1) (selectedCardIndex s2))
  /\ ((forall c, In c (bingoCards s1) -> matches c -> markedCount c = 0) ->
      (bingoCards s1 = [] /\ selectedCardIndex s2 = 0)
      \/ first_max_among (fun _ => True) (bingoCards s1) (selectedCardIndex s2))
  /\ (data_language data = None -> forall c, ~ matches c).
Proof.
  intros Ht s1 s2 matches.
  assert (E1 : bingoCards s1 = map (mark_card data) (bingoCards s)).
  { subst s1. now rewrite (handle_word_selected data s Ht). }
  assert (E2 : tasks s1
               = tasks s ++ [SelectTimer (bingoCards s1) (data_language data)]).
  { subst s1. now rewrite (handle_word_selected data s Ht). }
  assert (Hn : tasks s1 !! length (tasks s)
               = Some (SelectTimer (bingoCards s1) (data_language data))).
  { rewrite E2, lookup_app_r by lia. now rewrite Nat.sub_diag. }
  destruct (fire_select_timer _ _ _ _ Hn) as [Hsel Hcards].
  destruct (select_best_spec (bingoCards s1) (data_language data)) as [Ha Hb].
  split; [exact E1|]. split; [exact E2|]. split; [exact Hcards|].
  subst s2. rewrite Hsel. split; [exact Ha|]. split; [exact Hb|].
  intros Hnone c. subst matches. unfold in_language. rewrite Hnone. simpl.
  discriminate.
Qed.

Definition hond_dutch : Data :=
  {| data_type := "word_selected"; data_count := None;
     data_language := Some "dutch"; data_word := Some "HOND";
     data_card_ids := Some ["c1"; "c2"]; data_winners := None |}.

Definition card_c1_hond : Card :=
  {| card_id := "c1"; card_words := ["HOND"; "SOL"];
     card_language := "spanish"; transmitted := true; markedWords := [] |}.

Lemma selection_prefers_event_language_witness :
  let s := setBingoCards [card_c1_hond; card_c2] initial in
  let s1 := handleWebSocketMessage hond_dutch s in
  map markedCount (bingoCards s1) = [1; 1]
  /\ selectedCardIndex (fire 0 s1) = 1
  /\ first_max_among (fun c => in_language (Some "dutch") c = true)
       (bingoCards s1) (selectedCardIndex (fire 0 s1)).
Proof.
  intros s s1.
  destruct (selection_prefers_event_language hond_dutch s eq_refl)
    as [_ [_ [_ [H _]]]].
  split; [reflexivity|]. split; [reflexivity|].
  apply H. exists (with_markedWords ["HOND"] card_c2).
  split; [right; left; reflexivity|]. split; [reflexivity|].
  unfold markedCount. simpl. lia.
Defined.

(** ** Arrays of cards *)

Lemma findIndex_None (p : Card -> bool) (cards : list Card) :
  findIndex p cards = None -> Forall (fun c => p c = false) cards.
Proof.
  induction cards as [|c rest IH]; simpl; intros H; [constructor|].
  destruct (p c) eqn:E; [discriminate|].
  destruct (findIndex p rest); [discriminate|]. constructor; auto.
Qed.

Lemma findIndex_Some (p : Card -> bool) (cards : list Card) (i : nat) :
  findIndex p cards = Some i ->
  exists done c rest,
    cards = done ++ c :: rest /\ length done = i
    /\ Forall (fun c => p c = false) done /\ p c = true.
Proof.
  revert i. induction cards as [|c rest IH]; simpl; intros i H; [discriminate|].
  destruct (p c) eqn:E.
  - injection H as <-. exists [], c, rest. repeat split; auto.
  - destruct (findIndex p rest) as [k|]; [|discriminate].
    injection H as <-.
    destruct (IH k eq_refl) as [done [c' [rest' [-> [Hl [Hd Hc]]]]]].
    exists (c :: done), c', rest'. simpl. repeat split; auto.
Qed.

Lemma findIndex_first (p : Card -> bool) (done : list Card) (c : Card)
      (rest : list Card) :
  Forall (fun c => p c = false) done -> p c = true ->
  findIndex p (done ++ c :: rest) = Some (length done).
Proof.
  intros Hd Hc. induction Hd as [|d done Hd' _ IH]; simpl.
  - now rewrite Hc.
  - now rewrite Hd', IH.
Qed.

Lemma imap_at (g : Card -> Card) (done : list Card) (c : Card)
      (rest : list Card) :
  imap (fun idx x => if idx =? length done then g x else x)
       (done ++ c :: rest)
  = done ++ g c :: rest.
Proof.
  apply list_eq. intros i. rewrite list_lookup_imap.
  destruct (lt_eq_lt_dec i (length done)) as [[Hlt | ->] | Hgt].
  - rewrite !lookup_app_l by assumption.
    destruct (done !! i) eqn:E; simpl; [|reflexivity].
    destruct (Nat.eqb_spec i (length done)); [lia|reflexivity].
  - rewrite !lookup_app_r by lia. rewrite Nat.sub_diag. simpl.
    now rewrite Nat.eqb_refl.
  - rewrite !lookup_app_r by lia.
    destruct (i - length done) as [|k] eqn:E; [lia|]. simpl.
    destruct (rest !! k); simpl; [|reflexivity].
    destruct (Nat.eqb_spec i (length done)); [lia|reflexivity].
Qed.

Lemma existsb_untransmitted_false (cards : list Card) :
  existsb untransmitted cards = false <->
  Forall (fun c => transmitted c = true) cards.
Proof.
  unfold untransmitted. induction cards as [|c rest IH]; simpl.
  - split; [constructor | reflexivity].
  - rewrite orb_false_iff, IH, negb_false_iff. split.
    + intros [H1 H2]. now constructor.
    + intros H. inversion H. now split.
Qed.

(** What one round of [transmitNextCard] does: nothing to send and the loop
    stops, or the first unflagged card is handed to [sendBingoCard], flagged,
    and the timer is armed. *)
Lemma transmitNextCard_cases (s : App) :
  (Forall (fun c => transmitted c = true) (bingoCards s)
   /\ transmitNextCard s = setIsTransmitting false s)
  \/ (exists done c rest,
        bingoCards s = done ++ c :: rest
        /\ Forall (fun c => transmitted c = true) done
        /\ transmitted c = false
        /\ transmitNextCard s
           = setBingoCards (done ++ with_transmitted c :: rest)
               (setTimeout (TransmitTimer (done ++ with_transmitted c :: rest))
                  (sendBingoCard c s))).
Proof.
  unfold transmitNextCard.
  destruct (findIndex untransmitted (bingoCards s)) as [i|] eqn:E.
  - right. apply findIndex_Some in E.
    destruct E as [done [c [rest [Hc [Hl [Hd Hu]]]]]].
    exists done, c, rest. rewrite Hc. split; [reflexivity|].
    split; [| split].
    + eapply Forall_impl; [exact Hd|]. intros x Hx. simpl in Hx.
      unfold untransmitted in Hx. now apply negb_false_iff.
    + unfold untransmitted in Hu. now apply negb_true_iff.
    + subst i. rewrite lookup_app_r by lia. rewrite Nat.sub_diag. simpl.
      now rewrite imap_at.
  - left. split; [|reflexivity].
    apply findIndex_None in E. eapply Forall_impl; [exact E|].
    intros x Hx. simpl in Hx. unfold untransmitted in Hx.
    now apply negb_false_iff.
Qed.

(** ** Created cards *)

(** A card as [parseTxtFile] and [handleManualSubmit] make it. *)
Definition fresh (c : Card) : Prop :=
  transmitted c = false /\ markedWords c = [].

Lemma parseTxtFile_lines_fresh (lines : list string) :
  Forall fresh (parseTxtFile_lines lines).
Proof.
  induction lines as [|line rest IH]; simpl; [constructor|].
  destruct (length (split_ws (trim line)) <? 2); [assumption|].
  destruct (split_ws (trim line)) as [|id words]; [assumption|].
  destruct (length words =? 0); [assumption|].
  constructor; [now split | assumption].
Qed.

Lemma parseTxtFile_fresh (content : string) :
  Forall fresh (parseTxtFile content).
Proof.
  unfold parseTxtFile. destruct (length _ =? 0); [constructor|].
  apply parseTxtFile_lines_fresh.
Qed.

(** ** The invariant [markedWords ⊆ words] *)

Definition marks_within (c : Card) : Prop :=
  incl (markedWords c) (card_words c).

(** A pending file callback writes its captured array back to the store. *)
Definition task_marks_within (t : Task) : Prop :=
  match t with
  | ReaderOnload captured _ => Forall marks_within captured
  | _ => True
  end.

Definition store_ok (s : App) : Prop :=
  Forall marks_within (bingoCards s) /\ Forall task_marks_within (tasks s).

Lemma fresh_marks_within (c : Card) : fresh c -> marks_within c.
Proof. intros [_ H]. unfold marks_within. rewrite H. intros x []. Qed.

Lemma Forall_fresh_marks_within (cards : list Card) :
  Forall fresh cards -> Forall marks_within cards.
Proof.
  intros H. eapply Forall_impl; [exact H | exact fresh_marks_within].
Qed.

Lemma sendBingoCard_store (c : Card) (s : App) :
  bingoCards (sendBingoCard c s) = bingoCards s
  /\ tasks (sendBingoCard c s) = tasks s
  /\ isTransmitting (sendBingoCard c s) = isTransmitting s
  /\ socketRef (sendBingoCard c s) = socketRef s.
Proof.
  unfold sendBingoCard. destruct (socketRef s) as [[]|] eqn:E; simpl;
    repeat split; auto.
Qed.

Lemma transmitNextCard_ok (s : App) :
  store_ok s -> store_ok (transmitNextCard s).
Proof.
  intros [Hc Ht].
  destruct (transmitNextCard_cases s)
    as [[_ ->]|[done [c [rest [Hs [_ [_ ->]]]]]]].
  - split; assumption.
  - destruct (sendBingoCard_store c s) as [_ [E _]].
    unfold store_ok. simpl. rewrite E. split.
    + rewrite Hs in Hc. apply Forall_app in Hc. destruct Hc as [H1 H2].
      apply Forall_app. split; [assumption|].
      inversion H2; subst. constructor; assumption.
    + apply Forall_app. split; [assumption|]. repeat constructor.
Qed.

Lemma transmission_effect_ok (s : App) :
  store_ok s -> store_ok (transmission_effect s).
Proof.
  intros H. unfold transmission_effect.
  destruct (length (bingoCards s) =? 0); [assumption|].
  destruct (_ && _); [|assumption].
  apply transmitNextCard_ok. exact H.
Qed.

Lemma load_modal_effect_store (s : App) :
  bingoCards (load_modal_effect s) = bingoCards s
  /\ tasks (load_modal_effect s) = tasks s
  /\ isTransmitting (load_modal_effect s) = isTransmitting s
  /\ socketRef (load_modal_effect s) = socketRef s
  /\ sent (load_modal_effect s) = sent s.
Proof.
  unfold load_modal_effect. destruct (_ && _); simpl; repeat split.
Qed.

Lemma commit_bingoCards_ok (value : list Card) (s : App) :
  Forall marks_within value -> Forall task_marks_within (tasks s) ->
  store_ok (commit_bingoCards value s).
Proof.
  intros Hv Ht. unfold commit_bingoCards.
  destruct (length value =? length (bingoCards s)).
  - split; assumption.
  - apply transmission_effect_ok.
    destruct (load_modal_effect_store (setBingoCards value s)) as [E1 [E2 _]].
    unfold store_ok. rewrite E1, E2. split; assumption.
Qed.

Lemma handleManualSubmit_ok (s : App) :
  store_ok s -> store_ok (handleManualSubmit s).
Proof.
  intros [Hc Ht]. unfold handleManualSubmit.
  destruct (_ || _); [now split|].
  destruct (length _ =? 0); [now split|].
  apply commit_bingoCards_ok; [|exact Ht].
  apply Forall_app. split; [exact Hc|].
  constructor; [|constructor]. apply fresh_marks_within. now split.
Qed.

Lemma reader_onload_ok (captured : list Card) (content : string) (s : App) :
  Forall marks_within captured -> store_ok s ->
  store_ok (reader_onload captured content s).
Proof.
  intros Hcap [Hc Ht]. unfold reader_onload.
  destruct (0 <? length _); [|now split].
  apply commit_bingoCards_ok; [|exact Ht].
  apply Forall_app. split; [exact Hcap|].
  apply Forall_fresh_marks_within, parseTxtFile_fresh.
Qed.

Lemma handleWebSocketMessage_ok (data : Data) (s : App) :
  store_ok s -> store_ok (handleWebSocketMessage data s).
Proof.
  intros [Hc Ht]. unfold handleWebSocketMessage.
  repeat (destruct (String.eqb (data_type data) _); [| ]);
    try (now split).
  - unfold store_ok. simpl. split.
    + induction Hc; simpl; constructor; [|assumption].
      now apply mark_card_incl.
    + apply Forall_app. split; [assumption|]. repeat constructor.
  - destruct (data_winners data) as [w|]; [|now split].
    destruct (0 <? length w); now split.
Qed.

Lemma fire_ok (n : nat) (s : App) : store_ok s -> store_ok (fire n s).
Proof.
  intros [Hc Ht]. unfold fire.
  destruct (tasks s !! n) as [t|] eqn:E; [|now split].
  assert (Hd : Forall task_marks_within (delete n (tasks s))).
  { now apply Forall_delete. }
  assert (Htask : task_marks_within t).
  { rewrite Forall_lookup in Ht. exact (Ht n t E). }
  destruct t as [updated language|updatedCards|captured content]; simpl.
  - split; assumption.
  - unfold transmit_timer. destruct (existsb _ _).
    + apply transmitNextCard_ok. split; assumption.
    + split; assumption.
  - apply reader_onload_ok; [exact Htask|]. split; assumption.
Qed.

Lemma initial_ok : store_ok initial.
Proof. split; constructor. Qed.

Lemma step_ok (s : App) (a : Action) : store_ok s -> store_ok (step s a).
Proof.
  intros H. pose proof H as [Hc Ht]. destruct a; simpl.
  - destruct (showStartModal s); [|assumption].
    unfold registerUser. destruct (negb _); [assumption|].
    destruct (load_modal_effect_store
                (setShowStartModal false (setupWebSocket (setUserName name s))))
      as [E1 [E2 _]].
    unfold store_ok. rewrite E1, E2. unfold setupWebSocket.
    destruct (socketRef (setUserName name s)); now split.
  - destruct (socketRef s) as [[]|]; now split.
  - destruct (socketRef s); now split.
  - destruct (socketRef s); [apply initial_ok | assumption].
  - destruct (socketRef s) as [[]|]; try assumption.
    destruct payload; [|assumption]. now apply handleWebSocketMessage_ok.
  - now apply fire_ok.
  - destruct (_ && _); [|assumption].
    unfold handlePlay. destruct (socketRef s) as [[]|]; now split.
  - destruct (negb _); [apply initial_ok | assumption].
  - destruct (_ && _); now split.
  - destruct (_ && _); now split.
  - destruct (showLoadModal s); now split.
  - destruct (showLoadModal s); now split.
  - destruct (showLoadModal s); now split.
  - destruct (showLoadModal s); [|assumption]. now apply handleManualSubmit_ok.
  - destruct (showLoadModal s); [|assumption].
    destruct file; [|assumption]. unfold store_ok. simpl.
    split; [assumption|]. apply Forall_app. split; [assumption|].
    constructor; [exact Hc | constructor].
  - destruct (showRoundWinnersModal s); [|assumption].
    destruct (roundWinners s); now split.
Qed.

Lemma run_ok (acts : list Action) (s : App) :
  store_ok s -> store_ok (run s acts).
Proof.
  revert s. induction acts as [|a acts IH]; intros s H; simpl; [assumption|].
  apply IH. now apply step_ok.
Qed.

Lemma transmitNextCard_marks (s : App) :
  map markedWords (bingoCards (transmitNextCard s))
  = map markedWords (bingoCards s).
Proof.
  destruct (transmitNextCard_cases s)
    as [[_ ->]|[done [c [rest [Hs [_ [_ ->]]]]]]]; [reflexivity|].
  simpl. rewrite Hs, !map_app. reflexivity.
Qed.

Lemma transmission_effect_marks (s : App) :
  map markedWords (bingoCards (transmission_effect s))
  = map markedWords (bingoCards s).
Proof.
  unfold transmission_effect.
  destruct (length (bingoCards s) =? 0); [reflexivity|].
  destruct (_ && _); [|reflexivity].
  now rewrite transmitNextCard_marks.
Qed.

Lemma commit_bingoCards_marks (value : list Card) (s : App) :
  map markedWords (bingoCards (commit_bingoCards value s))
  = map markedWords value.
Proof.
  unfold commit_bingoCards.
  destruct (length value =? length (bingoCards s)); [reflexivity|].
  rewrite transmission_effect_marks.
  destruct (load_modal_effect_store (setBingoCards value s)) as [E _].
  now rewrite E.
Qed.

Lemma fresh_marks (cards : list Card) :
  Forall fresh cards -> map markedWords cards = repeat [] (length cards).
Proof.
  induction 1 as [|c cards [_ Hc] _ IH]; simpl; [reflexivity|].
  now rewrite Hc, IH.
Qed.

(** C6.  In every state the session can reach, whatever the user, the
    socket and the pending callbacks do, each card of the store has its
    [markedWords] included in its [words].  Cards start with no marked word:
    [parseTxtFile] only yields cards with empty [markedWords]; the file
    callback leaves the store alone or sets it to the array it captured
    followed by such cards; manual entry leaves the marked words of the
    store as they are or adds one card with none. *)
Theorem marked_words_within_words (acts : list Action) :
  Forall (fun c => incl (markedWords c) (card_words c))
         (bingoCards (run initial acts))
  /\ (forall content : string,
        Forall (fun c => markedWords c = []) (parseTxtFile content))
  /\ (forall (captured : list Card) (content : string) (s : App),
        let after := bingoCards (reader_onload captured content s) in
        after = bingoCards s
        \/ map markedWords after
           = map markedWords captured
               ++ repeat [] (length (parseTxtFile content)))
  /\ (forall s : App,
        let after := bingoCards (handleManualSubmit s) in
        after = bingoCards s
        \/ map markedWords after = map markedWords (bingoCards s) ++ [[]]).
Proof.
  split; [|split; [|split]].
  - exact (proj1 (run_ok acts initial initial_ok)).
  - intros content. eapply Forall_impl; [apply parseTxtFile_fresh|].
    intros c [_ H]. exact H.
  - intros captured content s after. subst after. unfold reader_onload.
    destruct (0 <? length _); [right | now left].
    rewrite commit_bingoCards_marks, map_app.
    now rewrite (fresh_marks _ (parseTxtFile_fresh content)).
  - intros s after. subst after. unfold handleManualSubmit.
    destruct (_ || _); [now left|].
    destruct (length _ =? 0); [now left|]. right.
    now rewrite commit_bingoCards_marks, map_app.
Qed.

(** ** Sending on a channel that is not open *)

(** Whatever the state of the socket, [transmitNextCard] flags the first
    unflagged card; without an open socket no frame leaves. *)
Lemma transmitNextCard_flags_unsent (s : App) (done rest : list Card) (c : Card) :
  socketRef s <> Some OPEN ->
  bingoCards s = done ++ c :: rest ->
  Forall (fun c => transmitted c = true) done ->
  transmitted c = false ->
  sent (transmitNextCard s) = sent s
  /\ bingoCards (transmitNextCard s) = done ++ with_transmitted c :: rest.
Proof.
  intros Hclosed Hs Hd Hc. unfold transmitNextCard. rewrite Hs.
  rewrite findIndex_first.
  - rewrite lookup_app_r by lia. rewrite Nat.sub_diag. simpl.
    rewrite imap_at. split; [|reflexivity].
    unfold sendBingoCard. destruct (socketRef s) as [[]|]; congruence.
  - eapply Forall_impl; [exact Hd|]. intros x Hx. unfold untransmitted.
    simpl. now rewrite Hx.
  - unfold untransmitted. now rewrite Hc.
Qed.

(** C1, at a failing input.  The user registers and adds card c1 while the
    socket is still connecting: no [bingo_card] frame is sent, yet the card
    is flagged [transmitted].  After the socket has opened and every pending
    callback has run, the only frame sent is the registration, the loop is
    idle and nothing is pending: the card is never sent. *)
Lemma card_flagged_while_connecting :
  let s := run initial
             [SubmitName "Ana"; TypeCardId "c1"; TypeWords "SOL"; ClickAddCard] in
  let s' := run s [SocketOpened; Callback 0] in
  socketRef s = Some CONNECTING
  /\ sent s = []
  /\ map card_id (bingoCards s) = ["c1"]
  /\ map transmitted (bingoCards s) = [true]
  /\ socketRef s' = Some OPEN
  /\ sent s' = [register_frame "Ana"]
  /\ map transmitted (bingoCards s') = [true]
  /\ isTransmitting s' = false
  /\ tasks s' = [].
Proof. vm_compute. repeat split. Qed.

(** ** Transmission order *)

Definition is_transmit_timer (t : Task) : bool :=
  match t with
  | TransmitTimer _ => true
  | _ => false
  end.

(** The number of armed continuations of the transmission loop. *)
Definition pending_transmits (s : App) : nat :=
  length (List.filter is_transmit_timer (tasks s)).

(** The store is a flagged part followed by an unflagged part, and the
    [bingo_card] frames sent are those of the flagged part, in store order. *)
Definition fifo (s : App) : Prop :=
  exists done pending : list Card,
    bingoCards s = done ++ pending
    /\ Forall (fun c => transmitted c = true) done
    /\ Forall (fun c => transmitted c = false) pending
    /\ bingo_card_sends s = map bingo_card_frame done.

(** Exactly one continuation is armed while [isTransmitting], none otherwise. *)
Definition one_loop (s : App) : Prop :=
  pending_transmits s = (if isTransmitting s then 1 else 0).

(** No card is in the store, or the channel is open. *)
Definition channel_ready (s : App) : Prop :=
  length (bingoCards s) = 0 \/ socketRef s = Some OPEN.

Lemma fifo_ext (s s' : App) :
  bingoCards s' = bingoCards s ->
  bingo_card_sends s' = bingo_card_sends s ->
  fifo s -> fifo s'.
Proof.
  intros E1 E2 [done [pending H]]. exists done, pending.
  now rewrite E1, E2.
Qed.

Lemma one_loop_ext (s s' : App) :
  tasks s' = tasks s -> isTransmitting s' = isTransmitting s ->
  one_loop s -> one_loop s'.
Proof.
  unfold one_loop, pending_transmits. intros -> ->. auto.
Qed.

Lemma split_unique (done done' pending rest : list Card) (c : Card) :
  done ++ pending = done' ++ c :: rest ->
  Forall (fun c => transmitted c = true) done ->
  Forall (fun c => transmitted c = false) pending ->
  Forall (fun c => transmitted c = true) done' ->
  transmitted c = false ->
  done = done' /\ pending = c :: rest.
Proof.
  revert done'. induction done as [|d done IH]; intros done' E Hd Hp Hd' Hc.
  - destruct done' as [|d' done']; simpl in E.
    + now split.
    + subst pending. inversion Hp; subst. inversion Hd'; subst. congruence.
  - destruct done' as [|d' done']; simpl in E.
    + injection E as -> _. inversion Hd; subst. congruence.
    + injection E as -> E. inversion Hd; subst. inversion Hd'; subst.
      destruct (IH done' E) as [-> ->]; auto.
Qed.

Lemma bingo_card_frame_with_transmitted (c : Card) :
  bingo_card_frame (with_transmitted c) = bingo_card_frame c.
Proof. reflexivity. Qed.

Lemma bingo_card_frame_mark_card (data : Data) (c : Card) :
  bingo_card_frame (mark_card data c) = bingo_card_frame c.
Proof.
  destruct (mark_card_fields data c) as [E1 [E2 [E3 _]]].
  unfold bingo_card_frame. now rewrite E1, E2, E3.
Qed.

Lemma transmitNextCard_shape (s : App) :
  length (bingoCards (transmitNextCard s)) = length (bingoCards s)
  /\ socketRef (transmitNextCard s) = socketRef s.
Proof.
  destruct (transmitNextCard_cases s)
    as [[_ ->]|[done [c [rest [Hs [_ [_ ->]]]]]]]; [now split|].
  simpl. destruct (sendBingoCard_store c s) as [_ [_ [_ E]]].
  rewrite Hs, !length_app. simpl. now split.
Qed.

Lemma transmitNextCard_fifo (s : App) :
  fifo s -> channel_ready s -> fifo (transmitNextCard s).
Proof.
  intros [done [pending [Hs [Hd [Hp Hsent]]]]] Hready.
  destruct (transmitNextCard_cases s)
    as [[_ ->]|[done' [c [rest [Hs' [Hd' [Hc ->]]]]]]].
  - exists done, pending. now repeat split.
  - assert (Hopen : socketRef s = Some OPEN).
    { destruct Hready as [Hz|Ho]; [|exact Ho].
      rewrite Hs', length_app in Hz. simpl in Hz. lia. }
    rewrite Hs in Hs'.
    destruct (split_unique _ _ _ _ _ Hs' Hd Hp Hd' Hc) as [<- ->].
    exists (done ++ [with_transmitted c]), rest.
    unfold bingo_card_sends, sendBingoCard. rewrite Hopen. simpl.
    split; [now rewrite <- app_assoc|].
    split; [apply Forall_app; split; [assumption | now repeat constructor]|].
    split; [now inversion Hp|].
    rewrite List.filter_app, map_app. simpl.
    unfold bingo_card_sends in Hsent. now rewrite Hsent.
Qed.

Lemma transmitNextCard_one_loop (s : App) :
  pending_transmits s = 0 -> isTransmitting s = true ->
  one_loop (transmitNextCard s).
Proof.
  intros Hz Ht. unfold one_loop.
  destruct (transmitNextCard_cases s)
    as [[_ ->]|[done [c [rest [_ [_ [_ ->]]]]]]].
  - unfold pending_transmits in *. simpl. lia.
  - destruct (sendBingoCard_store c s) as [_ [E1 [E2 _]]].
    unfold pending_transmits in *. simpl. rewrite E1, E2, Ht.
    rewrite List.filter_app, length_app, Hz. simpl. lia.
Qed.

Lemma transmission_effect_shape (s : App) :
  length (bingoCards (transmission_effect s)) = length (bingoCards s)
  /\ socketRef (transmission_effect s) = socketRef s.
Proof.
  unfold transmission_effect.
  destruct (length (bingoCards s) =? 0); [now split|].
  destruct (_ && _); [|now split].
  apply (transmitNextCard_shape (setIsTransmitting true s)).
Qed.

Lemma transmission_effect_fifo (s : App) :
  fifo s -> channel_ready s -> fifo (transmission_effect s).
Proof.
  intros Hf Hr. unfold transmission_effect.
  destruct (length (bingoCards s) =? 0); [assumption|].
  destruct (_ && _); [|assumption].
  apply transmitNextCard_fifo; [|exact Hr].
  now apply (fifo_ext s).
Qed.

Lemma transmission_effect_one_loop (s : App) :
  one_loop s -> one_loop (transmission_effect s).
Proof.
  intros Hl. unfold transmission_effect.
  destruct (length (bingoCards s) =? 0); [assumption|].
  destruct (existsb untransmitted (bingoCards s)); simpl; [|assumption].
  destruct (isTransmitting s) eqn:E; simpl; [assumption|].
  apply transmitNextCard_one_loop; [|reflexivity].
  unfold one_loop in Hl. rewrite E in Hl.
  unfold pending_transmits in *. simpl. lia.
Qed.

(** The loop is not started while one is running. *)
Lemma transmission_effect_running (s : App) :
  isTransmitting s = true -> transmission_effect s = s.
Proof.
  intros H. unfold transmission_effect. rewrite H.
  destruct (length (bingoCards s) =? 0); [reflexivity|].
  now rewrite andb_false_r.
Qed.

Lemma commit_bingoCards_shape (value : list Card) (s : App) :
  length (bingoCards (commit_bingoCards value s)) = length value
  /\ socketRef (commit_bingoCards value s) = socketRef s.
Proof.
  unfold commit_bingoCards.
  destruct (length value =? length (bingoCards s)); [now split|].
  destruct (transmission_effect_shape (load_modal_effect (setBingoCards value s)))
    as [E1 E2].
  destruct (load_modal_effect_store (setBingoCards value s))
    as [E3 [_ [_ [E4 _]]]].
  rewrite E1, E2, E3, E4. now split.
Qed.

Lemma commit_bingoCards_fifo (value : list Card) (s : App) :
  fifo (setBingoCards value s) ->
  channel_ready (commit_bingoCards value s) ->
  fifo (commit_bingoCards value s).
Proof.
  intros Hf Hr.
  destruct (commit_bingoCards_shape value s) as [L1 L2].
  unfold channel_ready in Hr. rewrite L1, L2 in Hr.
  unfold commit_bingoCards.
  destruct (length value =? length (bingoCards s)); [assumption|].
  destruct (load_modal_effect_store (setBingoCards value s))
    as [E1 [_ [_ [E2 E3]]]].
  apply transmission_effect_fifo.
  - apply (fifo_ext (setBingoCards value s)); [exact E1 | | exact Hf].
    unfold bingo_card_sends. now rewrite E3.
  - unfold channel_ready. now rewrite E1, E2.
Qed.

Lemma commit_bingoCards_one_loop (value : list Card) (s : App) :
  one_loop s -> one_loop (commit_bingoCards value s).
Proof.
  intros Hl. unfold commit_bingoCards.
  destruct (length value =? length (bingoCards s)); [assumption|].
  apply transmission_effect_one_loop.
  destruct (load_modal_effect_store (setBingoCards value s))
    as [_ [E1 [E2 _]]].
  now apply (one_loop_ext s).
Qed.

Lemma append_fifo (new : list Card) (s : App) :
  fifo s -> Forall fresh new -> fifo (setBingoCards (bingoCards s ++ new) s).
Proof.
  intros [done [pending [Hs [Hd [Hp Hsent]]]]] Hnew.
  exists done, (pending ++ new). simpl. rewrite Hs, <- app_assoc.
  split; [reflexivity|]. split; [assumption|]. split; [|assumption].
  apply Forall_app. split; [assumption|].
  eapply Forall_impl; [exact Hnew|]. intros c [H _]. exact H.
Qed.

Lemma handleManualSubmit_fifo (s : App) :
  fifo s -> channel_ready (handleManualSubmit s) -> fifo (handleManualSubmit s).
Proof.
  unfold handleManualSubmit. intros Hf.
  destruct (_ || _); [auto|].
  destruct (length _ =? 0); [auto|].
  intros Hr. apply commit_bingoCards_fifo; [|exact Hr].
  eapply fifo_ext; [| |eapply (append_fifo _ s Hf)]; [reflexivity|reflexivity|].
  constructor; [now split | constructor].
Qed.

Lemma handleManualSubmit_one_loop (s : App) :
  one_loop s -> one_loop (handleManualSubmit s).
Proof.
  unfold handleManualSubmit. intros Hl.
  destruct (_ || _); [assumption|].
  destruct (length _ =? 0); [assumption|].
  apply commit_bingoCards_one_loop. exact Hl.
Qed.

Lemma reader_onload_fifo (content : string) (s : App) :
  fifo s -> channel_ready (reader_onload (bingoCards s) content s) ->
  fifo (reader_onload (bingoCards s) content s).
Proof.
  unfold reader_onload. intros Hf.
  destruct (0 <? length _); [|auto].
  intros Hr. apply commit_bingoCards_fifo; [|exact Hr].
  eapply fifo_ext; [| |eapply (append_fifo _ s Hf)]; [reflexivity|reflexivity|].
  apply parseTxtFile_fresh.
Qed.

Lemma reader_onload_one_loop (captured : list Card) (content : string)
      (s : App) :
  one_loop s -> one_loop (reader_onload captured content s).
Proof.
  unfold reader_onload. intros Hl.
  destruct (0 <? length _); [|assumption].
  apply commit_bingoCards_one_loop. exact Hl.
Qed.

Lemma handleWebSocketMessage_fifo (data : Data) (s : App) :
  fifo s -> fifo (handleWebSocketMessage data s).
Proof.
  intros Hf. unfold handleWebSocketMessage.
  repeat (destruct (String.eqb (data_type data) _); [| ]);
    try exact Hf.
  - destruct Hf as [done [pending [Hs [Hd [Hp Hsent]]]]].
    exists (map (mark_card data) done), (map (mark_card data) pending).
    simpl. rewrite Hs, map_app. split; [reflexivity|].
    split; [|split].
    + clear Hs Hsent. induction Hd as [|c l Hc _ IH]; simpl; constructor; auto.
      destruct (mark_card_fields data c) as [_ [_ [_ E]]]. congruence.
    + clear Hs. induction Hp as [|c l Hc _ IH]; simpl; constructor; auto.
      destruct (mark_card_fields data c) as [_ [_ [_ E]]]. congruence.
    + unfold bingo_card_sends in *. simpl. rewrite Hsent, map_map.
      apply map_ext. intros c. symmetry. apply bingo_card_frame_mark_card.
  - destruct (data_winners data) as [w|]; [|exact Hf].
    destruct (0 <? length w); exact Hf.
Qed.

Lemma handleWebSocketMessage_one_loop (data : Data) (s : App) :
  one_loop s -> one_loop (handleWebSocketMessage data s).
Proof.
  intros Hl. unfold handleWebSocketMessage.
  repeat (destruct (String.eqb (data_type data) _); [| ]);
    try exact Hl.
  - unfold one_loop, pending_transmits in *. simpl.
    rewrite List.filter_app, length_app. simpl. lia.
  - destruct (data_winners data) as [w|]; [|exact Hl].
    destruct (0 <? length w); exact Hl.
Qed.

Lemma filter_delete_length (p : Task -> bool) (l : list Task) (n : nat)
      (t : Task) :
  l !! n = Some t ->
  length (List.filter p (delete n l))
  = length (List.filter p l) - (if p t then 1 else 0).
Proof.
  revert n. induction l as [|x l IH]; intros [|n] H; try discriminate.
  - injection H as ->. simpl. destruct (p t); simpl; lia.
  - simpl in H. change (delete (S n) (x :: l)) with (x :: delete n l).
    assert (Hpos : p t = true -> 0 < length (List.filter p l)).
    { intros E. apply list_elem_of_lookup_2, list_elem_of_In in H.
      assert (Hin : In t (List.filter p l)) by (apply filter_In; now split).
      destruct (List.filter p l); [destruct Hin | simpl; lia]. }
    simpl. specialize (IH n H).
    destruct (p x); simpl; rewrite IH; [|reflexivity].
    destruct (p t); [|lia]. specialize (Hpos eq_refl). lia.
Qed.

Lemma filter_lookup_pos (p : Task -> bool) (l : list Task) (n : nat) (t : Task) :
  l !! n = Some t -> p t = true -> 0 < length (List.filter p l).
Proof.
  intros H E. apply list_elem_of_lookup_2, list_elem_of_In in H.
  assert (Hin : In t (List.filter p l)) by (apply filter_In; now split).
  destruct (List.filter p l); [destruct Hin | simpl; lia].
Qed.

Lemma fire_one_loop (n : nat) (s : App) : one_loop s -> one_loop (fire n s).
Proof.
  intros Hl. unfold fire. destruct (tasks s !! n) as [t|] eqn:E; [|assumption].
  pose proof (filter_delete_length is_transmit_timer _ _ _ E) as Hdel.
  destruct t as [updated language|updatedCards|captured content]; simpl in *.
  - unfold one_loop, pending_transmits in *. simpl. lia.
  - pose proof (filter_lookup_pos is_transmit_timer _ _ _ E eq_refl) as Hpos.
    unfold one_loop, pending_transmits in Hl.
    destruct (isTransmitting s) eqn:Ht; [|lia].
    unfold transmit_timer. destruct (existsb _ _).
    + apply transmitNextCard_one_loop; [|exact Ht].
      unfold pending_transmits. simpl. lia.
    + unfold one_loop, pending_transmits. simpl. lia.
  - apply reader_onload_one_loop.
    unfold one_loop, pending_transmits in *. simpl. lia.
Qed.

(** A file callback that fires finds the store as it was when the file was
    chosen, so that what it writes back is the store with cards added. *)
Definition step_fresh (s : App) (a : Action) : Prop :=
  match a with
  | Callback n =>
      match tasks s !! n with
      | Some (ReaderOnload captured _) => captured = bingoCards s
      | _ => True
      end
  | _ => True
  end.

Lemma fire_fifo (n : nat) (s : App) :
  fifo s -> step_fresh s (Callback n) -> channel_ready (fire n s) ->
  fifo (fire n s).
Proof.
  intros Hf Hfresh. unfold fire. simpl in Hfresh.
  destruct (tasks s !! n) as [t|] eqn:E; [|auto].
  destruct t as [updated language|updatedCards|captured content]; simpl.
  - intros _. now apply (fifo_ext s).
  - unfold transmit_timer. destruct (existsb _ _); intros Hr.
    + apply transmitNextCard_fifo; [now apply (fifo_ext s)|].
      destruct (transmitNextCard_shape (setTasks (delete n (tasks s)) s))
        as [L1 L2].
      unfold channel_ready in *. now rewrite L1, L2 in Hr.
    + now apply (fifo_ext s).
  - subst captured. intros Hr.
    apply (reader_onload_fifo content (setTasks (delete n (tasks s)) s));
      [|exact Hr].
    now apply (fifo_ext s).
Qed.

Lemma fifo_initial : fifo initial.
Proof. exists [], []. repeat split; constructor. Qed.

Lemma one_loop_initial : one_loop initial.
Proof. unfold one_loop, pending_transmits. simpl. lia. Qed.

Lemma step_one_loop (s : App) (a : Action) : one_loop s -> one_loop (step s a).
Proof.
  intros Hl. destruct a; simpl.
  - destruct (showStartModal s); [|assumption].
    unfold registerUser. destruct (negb _); [assumption|].
    destruct (load_modal_effect_store
                (setShowStartModal false (setupWebSocket (setUserName name s))))
      as [_ [E1 [E2 _]]].
    eapply one_loop_ext; [exact E1 | exact E2 |].
    unfold setupWebSocket. destruct (socketRef (setUserName name s)); exact Hl.
  - destruct (socketRef s) as [[]|]; exact Hl.
  - destruct (socketRef s); exact Hl.
  - destruct (socketRef s); [apply one_loop_initial | exact Hl].
  - destruct (socketRef s) as [[]|]; try exact Hl.
    destruct payload; [|exact Hl]. now apply handleWebSocketMessage_one_loop.
  - now apply fire_one_loop.
  - destruct (_ && _); [|exact Hl].
    unfold handlePlay. destruct (socketRef s) as [[]|]; exact Hl.
  - destruct (negb _); [apply one_loop_initial | exact Hl].
  - destruct (_ && _); exact Hl.
  - destruct (_ && _); exact Hl.
  - destruct (showLoadModal s); exact Hl.
  - destruct (showLoadModal s); exact Hl.
  - destruct (showLoadModal s); exact Hl.
  - destruct (showLoadModal s); [|exact Hl]. now apply handleManualSubmit_one_loop.
  - destruct (showLoadModal s); [|exact Hl].
    destruct file; [|exact Hl].
    unfold one_loop, pending_transmits in *. simpl.
    rewrite List.filter_app, length_app. simpl. lia.
  - destruct (showRoundWinnersModal s); [|exact Hl].
    destruct (roundWinners s); exact Hl.
Qed.

Lemma step_fifo (s : App) (a : Action) :
  fifo s -> step_fresh s a -> channel_ready (step s a) -> fifo (step s a).
Proof.
  intros Hf Hfresh. destruct a; simpl.
  - intros _. destruct (showStartModal s); [|assumption].
    unfold registerUser. destruct (negb _); [assumption|].
    destruct (load_modal_effect_store
                (setShowStartModal false (setupWebSocket (setUserName name s))))
      as [E1 [_ [_ [_ E2]]]].
    eapply fifo_ext; [exact E1 | unfold bingo_card_sends; now rewrite E2 |].
    unfold setupWebSocket. destruct (socketRef (setUserName name s)); exact Hf.
  - intros _. destruct (socketRef s) as [[]|]; try exact Hf.
    apply (fifo_ext s); [reflexivity | | exact Hf].
    unfold bingo_card_sends. simpl. rewrite List.filter_app. simpl.
    now rewrite app_nil_r.
  - intros _. destruct (socketRef s); exact Hf.
  - intros _. destruct (socketRef s); [apply fifo_initial | exact Hf].
  - intros _. destruct (socketRef s) as [[]|]; try exact Hf.
    destruct payload; [|exact Hf]. now apply handleWebSocketMessage_fifo.
  - now apply fire_fifo.
  - intros _. destruct (_ && _); [|exact Hf].
    unfold handlePlay. destruct (socketRef s) as [[]|]; try exact Hf.
    apply (fifo_ext s); [reflexivity | | exact Hf].
    unfold bingo_card_sends. simpl. rewrite List.filter_app. simpl.
    now rewrite app_nil_r.
  - intros _. destruct (negb _); [apply fifo_initial | exact Hf].
  - intros _. destruct (_ && _); exact Hf.
  - intros _. destruct (_ && _); exact Hf.
  - intros _. destruct (showLoadModal s); exact Hf.
  - intros _. destruct (showLoadModal s); exact Hf.
  - intros _. destruct (showLoadModal s); exact Hf.
  - destruct (showLoadModal s); [|auto]. now apply handleManualSubmit_fifo.
  - intros _. destruct (showLoadModal s); [|exact Hf].
    destruct file; exact Hf.
  - intros _. destruct (showRoundWinnersModal s); [|exact Hf].
    destruct (roundWinners s); exact Hf.
Qed.

(** The run keeps the channel open while the store holds cards, and every
    file callback finds the store as it was when its file was chosen. *)
Fixpoint orderly (s : App) (acts : list Action) : Prop :=
  match acts with
  | [] => True
  | a :: rest =>
      step_fresh s a /\ channel_ready (step s a) /\ orderly (step s a) rest
  end.

Lemma step_ready_after (s : App) (acts : list Action) :
  channel_ready s -> orderly s acts -> channel_ready (run s acts).
Proof.
  revert s. induction acts as [|a acts IH]; intros s Hr Ho; simpl.
  - exact Hr.
  - destruct Ho as [_ [Hr' Ho]]. now apply IH.
Qed.

Lemma run_fifo (acts : list Action) (s : App) :
  fifo s -> one_loop s -> orderly s acts ->
  fifo (run s acts) /\ one_loop (run s acts).
Proof.
  revert s. induction acts as [|a acts IH]; intros s Hf Hl Ho; simpl.
  - now split.
  - destruct Ho as [Hfresh [Hr Ho]]. apply IH.
    + now apply step_fifo.
    + now apply step_one_loop.
    + exact Ho.
Qed.

(** ** Draining the store *)

Lemma findIndex_all (p : Card -> bool) (cards : list Card) :
  Forall (fun c => p c = false) cards -> findIndex p cards = None.
Proof.
  induction 1 as [|c l Hc _ IH]; simpl; [reflexivity|]. now rewrite Hc, IH.
Qed.

Lemma flagged_not_untransmitted (cards : list Card) :
  Forall (fun c => transmitted c = true) cards ->
  Forall (fun c => untransmitted c = false) cards.
Proof.
  intros H. eapply Forall_impl; [exact H|]. intros c Hc. unfold untransmitted.
  simpl. now rewrite Hc.
Qed.

(** The timer's test on the array it captured agrees with the store when
    the store is still that array. *)
Lemma transmit_timer_current (s : App) :
  transmit_timer (bingoCards s) s = transmitNextCard s.
Proof.
  unfold transmit_timer. destruct (existsb _ _) eqn:E; [reflexivity|].
  apply existsb_untransmitted_false in E.
  unfold transmitNextCard.
  now rewrite (findIndex_all _ _ (flagged_not_untransmitted _ E)).
Qed.

Lemma transmitNextCard_open (s : App) (done rest : list Card) (c : Card) :
  socketRef s = Some OPEN ->
  bingoCards s = done ++ c :: rest ->
  Forall (fun c => transmitted c = true) done ->
  transmitted c = false ->
  transmitNextCard s
  = setBingoCards (done ++ with_transmitted c :: rest)
      (setTimeout (TransmitTimer (done ++ with_transmitted c :: rest))
         (setSent (sent s ++ [bingo_card_frame c]) s)).
Proof.
  intros Hopen Hs Hd Hc. unfold transmitNextCard. rewrite Hs.
  rewrite findIndex_first.
  - rewrite lookup_app_r by lia. rewrite Nat.sub_diag. simpl.
    rewrite imap_at. unfold sendBingoCard. now rewrite Hopen.
  - now apply flagged_not_untransmitted.
  - unfold untransmitted. now rewrite Hc.
Qed.

(** From a state with no pending callback, a round of [transmitNextCard]
    followed by as many timer callbacks as there are unflagged cards sends
    them all, in store order, and leaves the loop idle. *)
Lemma drain (pending : list Card) :
  forall (done : list Card) (s : App),
    bingoCards s = done ++ pending ->
    Forall (fun c => transmitted c = true) done ->
    Forall (fun c => transmitted c = false) pending ->
    socketRef s = Some OPEN ->
    tasks s = [] ->
    let s' := run (transmitNextCard s) (repeat (Callback 0) (length pending)) in
    bingoCards s' = done ++ map with_transmitted pending
    /\ bingo_card_sends s' = bingo_card_sends s ++ map bingo_card_frame pending
    /\ tasks s' = []
    /\ isTransmitting s' = false.
Proof.
  induction pending as [|c rest IH]; intros done s Hs Hd Hp Hopen Ht s';
    subst s'.
  - simpl. rewrite app_nil_r in Hs. unfold transmitNextCard.
    rewrite Hs, (findIndex_all _ _ (flagged_not_untransmitted _ Hd)).
    simpl. rewrite !app_nil_r. now repeat split.
  - inversion Hp as [|c0 l0 Hc Hrest]; subst.
    rewrite (transmitNextCard_open s done rest c Hopen Hs Hd Hc).
    set (snap := done ++ with_transmitted c :: rest).
    set (X := setBingoCards snap _).
    set (Y := setTasks [] X).
    assert (F : step X (Callback 0) = transmitNextCard Y).
    { subst X. simpl. unfold fire. simpl. rewrite Ht. simpl.
      apply (transmit_timer_current Y). }
    change (run X (repeat (Callback 0) (length (c :: rest))))
      with (run (step X (Callback 0)) (repeat (Callback 0) (length rest))).
    rewrite F.
    destruct (IH (done ++ [with_transmitted c]) Y) as [H1 [H2 [H3 H4]]].
    + subst Y X snap. simpl. now rewrite <- app_assoc.
    + apply Forall_app. split; [assumption | now repeat constructor].
    + assumption.
    + exact Hopen.
    + reflexivity.
    + rewrite H1, H2, H3, H4. subst Y X. unfold bingo_card_sends. simpl.
      rewrite List.filter_app. simpl. rewrite <- !app_assoc. now repeat split.
Qed.

Lemma all_flagged_split (done pending cards : list Card) :
  cards = done ++ pending ->
  Forall (fun c => transmitted c = true) cards ->
  Forall (fun c => transmitted c = false) pending ->
  pending = [] /\ done = cards.
Proof.
  intros -> Hall Hp. apply Forall_app in Hall. destruct Hall as [_ Hall].
  destruct pending as [|c rest].
  - split; [reflexivity | now rewrite app_nil_r].
  - inversion Hall; subst. inversion Hp; subst. congruence.
Qed.

Definition card_A : Card :=
  {| card_id := "A"; card_words := ["SOL"; "LUNA"]; card_language := "spanish";
     transmitted := true; markedWords := [] |}.

Definition card_B : Card :=
  {| card_id := "B"; card_words := ["MAR"]; card_language := "spanish";
     transmitted := true; markedWords := [] |}.

Definition card_C : Card :=
  {| card_id := "C"; card_words := ["CIELO"; "RIO"]; card_language := "spanish";
     transmitted := true; markedWords := [] |}.

(** A card added while the socket is still connecting, then the socket
    opens and the pending callback runs. *)
Definition early_card_session : list Action :=
  [ SubmitName "Ana"; TypeCardId "A"; TypeWords "SOL"; ClickAddCard;
    SocketOpened; Callback 0 ].

(** A file with cards A, B, C; once A is sent a second file is chosen; the
    timer sends B; the second file's callback writes back the array captured
    when it was chosen, followed by card D; the next timer then runs. *)
Definition overlapping_files_session : list Action :=
  [ SubmitName "Ana"; SocketOpened;
    ChooseFile (Some "A SOL LUNA
B MAR
C CIELO RIO");
    Callback 0;
    OpenLoadModal; ChooseFile (Some "D FLOR");
    Callback 0; Callback 0; Callback 0 ].

(** A file with cards A, B, C on an open channel; while the loop runs the
    user types card D; D is added after C has been sent, during the last wait
    of the loop; then the last timer runs. *)
Definition late_card_session : list Action :=
  [ SubmitName "Ana"; SocketOpened;
    ChooseFile (Some "A SOL LUNA
B MAR
C CIELO RIO");
    Callback 0;
    OpenLoadModal; TypeCardId "D"; TypeWords "FLOR";
    Callback 0; Callback 0;
    ClickAddCard;
    Callback 0 ].

(** C3, at failing inputs.  Card A appended while the channel is not open
    is never sent, although nothing is left pending and the loop is idle.
    When a file callback writes back an array captured before card B was
    flagged, B is sent a second time.  And on an open channel, card D added
    during the last wait of the loop is not sent: the last timer looks at the
    array it captured, finds nothing left and stops the loop with D not
    flagged and nothing pending. *)
Lemma sends_skipped_or_repeated :
  (let s := run initial early_card_session in
   map card_id (bingoCards s) = ["A"]
   /\ socketRef s = Some OPEN /\ tasks s = [] /\ isTransmitting s = false
   /\ bingo_card_sends s = [])
  /\ (let s := run initial overlapping_files_session in
      map card_id (bingoCards s) = ["A"; "B"; "C"; "D"]
      /\ bingo_card_sends s
         = [bingo_card_frame card_A; bingo_card_frame card_B;
            bingo_card_frame card_B])
  /\ (let s := run initial late_card_session in
      map card_id (bingoCards s) = ["A"; "B"; "C"; "D"]
      /\ map transmitted (bingoCards s) = [true; true; true; false]
      /\ socketRef s = Some OPEN /\ tasks s = [] /\ isTransmitting s = false
      /\ bingo_card_sends s
         = [bingo_card_frame card_A; bingo_card_frame card_B;
            bingo_card_frame card_C]).
Proof. vm_compute. repeat split. Qed.

(** The sequencer on runs without those situations.  Take any run in
    which the channel is open whenever the store holds cards and every file
    callback appends to the store it was started from.  Then the store is a
    flagged part [done] followed by an unflagged part [pending]; the
    [bingo_card] frames sent so far are exactly the frames of [done], one per
    card and in store order; the next round of the sequencer sends the first
    card of [pending] and flags it; exactly one continuation of the loop is
    armed while [isTransmitting] and none otherwise, and the trigger does
    nothing while [isTransmitting]; and from a state with nothing pending,
    the trigger followed by one timer callback per unflagged card sends all
    of [pending] in order and leaves the loop idle. *)
Theorem transmission_is_fifo (acts : list Action) :
  orderly initial acts ->
  let s := run initial acts in
  exists done pending : list Card,
    bingoCards s = done ++ pending
    /\ Forall (fun c => transmitted c = true) done
    /\ Forall (fun c => transmitted c = false) pending
    /\ bingo_card_sends s = map bingo_card_frame done
    /\ (forall c rest, pending = c :: rest ->
          bingo_card_sends (transmitNextCard s)
          = bingo_card_sends s ++ [bingo_card_frame c]
          /\ bingoCards (transmitNextCard s)
             = done ++ with_transmitted c :: rest)
    /\ pending_transmits s = (if isTransmitting s then 1 else 0)
    /\ (isTransmitting s = true -> transmission_effect s = s)
    /\ (tasks s = [] ->
        let s' := run (transmission_effect s)
                      (repeat (Callback 0) (length pending)) in
        bingoCards s' = done ++ map with_transmitted pending
        /\ bingo_card_sends s' = map bingo_card_frame (done ++ pending)
        /\ tasks s' = []
        /\ isTransmitting s' = false).
Proof.
  intros Ho s.
  destruct (run_fifo acts initial fifo_initial one_loop_initial Ho)
    as [[done [pending [Hs [Hd [Hp Hsent]]]]] Hl].
  assert (Hr : channel_ready s).
  { apply step_ready_after; [now left | exact Ho]. }
  fold s in Hs, Hsent, Hl.
  assert (Hopen : pending <> [] -> socketRef s = Some OPEN).
  { intros Hne. destruct Hr as [Hz|Hopen]; [|exact Hopen].
    rewrite Hs, length_app in Hz. destruct pending; [congruence|].
    simpl in Hz. lia. }
  exists done, pending.
  split; [exact Hs|]. split; [exact Hd|]. split; [exact Hp|].
  split; [exact Hsent|]. split; [|split; [exact Hl|split]].
  - intros c rest ->. inversion Hp as [|c0 l0 Hc Hrest]; subst.
    rewrite (transmitNextCard_open s done rest c
               (Hopen ltac:(discriminate)) Hs Hd Hc).
    unfold bingo_card_sends. simpl. rewrite List.filter_app. simpl.
    now split.
  - apply transmission_effect_running.
  - intros Ht s'. subst s'.
    assert (Hidle : isTransmitting s = false).
    { unfold one_loop, pending_transmits in Hl. rewrite Ht in Hl.
      destruct (isTransmitting s); [discriminate Hl | reflexivity]. }
    destruct pending as [|c rest].
    + assert (E : transmission_effect s = s).
      { unfold transmission_effect.
        destruct (length (bingoCards s) =? 0); [reflexivity|].
        rewrite app_nil_r in Hs. rewrite Hs.
        apply existsb_untransmitted_false in Hd. now rewrite Hd. }
      rewrite E. simpl. rewrite !app_nil_r. rewrite app_nil_r in Hs.
      now repeat split.
    + assert (E : transmission_effect s
                  = transmitNextCard (setIsTransmitting true s)).
      { unfold transmission_effect. rewrite Hidle, Hs, length_app. simpl.
        rewrite Nat.add_succ_r. simpl. rewrite existsb_app. simpl.
        inversion Hp as [|c0 l0 Hc Hrest]; subst.
        unfold untransmitted at 2. rewrite Hc. simpl.
        now rewrite orb_true_r. }
      rewrite E.
      destruct (drain (c :: rest) done (setIsTransmitting true s))
        as [H1 [H2 [H3 H4]]]; try assumption.
      * apply Hopen. discriminate.
      * rewrite H1, H2, H3, H4, map_app.
        unfold bingo_card_sends in *. simpl. now rewrite Hsent.
Qed.

(** One file with the cards A, B and C, chosen after the socket has opened,
    and the callbacks that follow. *)
Definition abc_session : list Action :=
  [ SubmitName "Ana"; SocketOpened;
    ChooseFile (Some "A SOL LUNA
B MAR
C CIELO RIO");
    Callback 0; Callback 0; Callback 0; Callback 0 ].

Lemma abc_session_orderly : orderly initial abc_session.
Proof.
  vm_compute.
  repeat split; try (left; reflexivity); right; reflexivity.
Defined.

Lemma transmission_is_fifo_witness :
  orderly initial abc_session
  /\ bingoCards (run initial abc_session) = [card_A; card_B; card_C]
  /\ bingo_card_sends (run initial abc_session)
     = [bingo_card_frame card_A; bingo_card_frame card_B;
        bingo_card_frame card_C]
  /\ pending_transmits (run initial abc_session) = 0.
Proof.
  split; [exact abc_session_orderly|].
  destruct (transmission_is_fifo abc_session abc_session_orderly)
    as [done [pending [Hs [_ [Hp [Hsent [_ [Hl _]]]]]]]].
  assert (Hcards : bingoCards (run initial abc_session)
                   = [card_A; card_B; card_C]) by reflexivity.
  split; [exact Hcards|].
  destruct (all_flagged_split done pending [card_A; card_B; card_C])
    as [_ Hdone].
  - now rewrite <- Hs.
  - repeat constructor.
  - exact Hp.
  - split; [now rewrite Hsent, Hdone | exact Hl].
Defined.

(** * Further properties *)

(** ** Language classifier *)

Lemma detectLanguage_cases (wordCount : nat) :
  detectLanguage wordCount
  = if 24 =? wordCount then "spanish"
    else if 14 =? wordCount then "english"
    else if 20 =? wordCount then "portuguese"
    else if 10 =? wordCount then "dutch"
    else "spanish".
Proof. reflexivity. Qed.

(** X1.  For every word count, [detectLanguage] returns a declared
    language; either that language's grid has exactly that many cells
    (rows times columns), or no declared language has that total and the
    result is the default, spanish. *)
Theorem detectLanguage_classifies (wordCount : nat) :
  exists config : LanguageConfig,
    config_lookup LANGUAGE_CONFIGS (detectLanguage wordCount) = Some config
    /\ ((total config = wordCount /\ rows config * cols config = wordCount)
        \/ (detectLanguage wordCount = "spanish"
            /\ forall lang c, In (lang, c) LANGUAGE_CONFIGS ->
                              total c <> wordCount)).
Proof.
  rewrite detectLanguage_cases.
  destruct (Nat.eqb_spec 24 wordCount) as [<-|H24].
  { eexists. split; [reflexivity|]. left. now split. }
  destruct (Nat.eqb_spec 14 wordCount) as [<-|H14].
  { eexists. split; [reflexivity|]. left. now split. }
  destruct (Nat.eqb_spec 20 wordCount) as [<-|H20].
  { eexists. split; [reflexivity|]. left. now split. }
  destruct (Nat.eqb_spec 10 wordCount) as [<-|H10].
  { eexists. split; [reflexivity|]. left. now split. }
  eexists. split; [reflexivity|]. right. split; [reflexivity|].
  intros lang c [E|[E|[E|[E|[]]]]]; injection E as <- <-; simpl; congruence.
Qed.

(** ** Characters *)

Lemma chars_head (c : ascii) (r : list ascii) :
  exists t gs, chars (c :: r) = (c :: t) :: gs.
Proof.
  simpl. destruct (next_is_cont r); [|eauto].
  destruct (chars r) as [|g gs]; simpl; eauto.
Qed.

Lemma chars_groups_nonempty (l : list ascii) :
  Forall (fun g => g <> []) (chars l).
Proof.
  induction l as [|c r IH]; simpl; [constructor|].
  destruct (next_is_cont r).
  - destruct IH as [|g gs Hg Hgs]; simpl.
    + now repeat constructor.
    + constructor; [discriminate | assumption].
  - constructor; [discriminate | assumption].
Qed.

Lemma concat_chars (l : list ascii) : concat (chars l) = l.
Proof.
  induction l as [|c r IH]; simpl; [reflexivity|].
  destruct (next_is_cont r); simpl; [|now rewrite IH].
  destruct (chars r) as [|g gs]; simpl in *; now rewrite <- IH.
Qed.

Lemma chars_nil (l : list ascii) : chars l = [] -> l = [].
Proof. intros H. rewrite <- (concat_chars l), H. reflexivity. Qed.

Lemma chars_app (a b : list ascii) :
  next_is_cont b = false -> chars (a ++ b) = chars a ++ chars b.
Proof.
  intros Hb. induction a as [|c a IH]; [reflexivity|].
  change (chars ((c :: a) ++ b))
    with (if next_is_cont (a ++ b) then cons_head c (chars (a ++ b))
          else [c] :: chars (a ++ b)).
  change (chars (c :: a))
    with (if next_is_cont a then cons_head c (chars a) else [c] :: chars a).
  rewrite IH. destruct a as [|c2 a]; simpl app at 1.
  - now rewrite Hb.
  - change (next_is_cont (c2 :: a ++ b)) with (next_is_cont (c2 :: a)).
    destruct (next_is_cont (c2 :: a)); [|reflexivity].
    destruct (chars_head c2 a) as [t [gs ->]]. reflexivity.
Qed.

(** A character of a segmentation: a byte and continuation bytes. *)
Definition body_ok (g : list ascii) : Prop :=
  match g with
  | [] => False
  | _ :: t => forallb is_cont t = true
  end.

(** A list of characters that is the segmentation of its bytes. *)
Fixpoint segmented (cs : list (list ascii)) : Prop :=
  match cs with
  | [] => True
  | g :: gs => body_ok g /\ next_is_cont (concat gs) = false /\ segmented gs
  end.

Lemma chars_group (g : list ascii) : body_ok g -> chars g = [g].
Proof.
  destruct g as [|c t]; [intros []|]. revert c.
  induction t as [|c2 t IH]; intros c H; [reflexivity|].
  simpl in H. apply andb_true_iff in H. destruct H as [H2 Ht].
  change (chars (c :: c2 :: t))
    with (if is_cont c2 then cons_head c (chars (c2 :: t))
          else [c] :: chars (c2 :: t)).
  rewrite H2, (IH c2 Ht). reflexivity.
Qed.

Lemma seg_chars (cs : list (list ascii)) :
  segmented cs -> chars (concat cs) = cs.
Proof.
  induction cs as [|g gs IH]; simpl; [reflexivity|].
  intros [Hb [Hn Hs]]. rewrite (chars_app _ _ Hn), (chars_group _ Hb), (IH Hs).
  reflexivity.
Qed.

Lemma chars_segmented (l : list ascii) : segmented (chars l).
Proof.
  induction l as [|c r IH]; [exact I|].
  change (chars (c :: r))
    with (if next_is_cont r then cons_head c (chars r) else [c] :: chars r).
  destruct (next_is_cont r) eqn:E.
  - destruct r as [|c2 r']; [discriminate|].
    destruct (chars_head c2 r') as [t [gs Hc]]. rewrite Hc in *.
    simpl in E. destruct IH as [Hb [Hn Hs]]. simpl in Hb.
    simpl. rewrite E, Hb. now repeat split.
  - simpl. rewrite concat_chars. now repeat split.
Qed.

Lemma segmented_app_r (p t : list (list ascii)) :
  segmented (p ++ t) -> segmented t.
Proof. induction p as [|g p IH]; simpl; [auto | tauto]. Qed.

Lemma segmented_app_l (t q : list (list ascii)) :
  segmented (t ++ q) -> segmented t.
Proof.
  induction t as [|g t IH]; simpl; [auto|].
  intros [Hb [Hn Hs]]. split; [exact Hb|]. split; [|now apply IH].
  destruct t as [|g' t']; [reflexivity|].
  simpl in Hs. destruct Hs as [Hb' _].
  destruct g' as [|c g']; [destruct Hb'|]. exact Hn.
Qed.

Lemma segmented_infix (p t q : list (list ascii)) :
  segmented (p ++ t ++ q) -> segmented t.
Proof. intros H. apply segmented_app_r in H. now apply segmented_app_l in H. Qed.

(** ** White space *)

Ltac bool_to_prop :=
  repeat rewrite ?andb_true_iff, ?orb_true_iff, ?Nat.eqb_eq, ?Nat.leb_le in *.

(** A white-space character begins with a byte that is not a continuation
    byte. *)
Lemma is_ws_lead (g : list ascii) :
  is_ws g = true -> next_is_cont g = false /\ g <> [].
Proof.
  unfold is_ws, next_is_cont, is_cont.
  destruct g as [|a [|b [|c [|d t]]]]; cbn [map]; try discriminate;
    intros H; (split; [|discriminate]);
    destruct (Nat.leb_spec 128 (nat_of_ascii a)) as [Hge|Hlt];
      try reflexivity; cbn [andb];
    destruct (Nat.leb_spec (nat_of_ascii a) 191) as [Hle|Hgt];
      try reflexivity; exfalso; bool_to_prop; lia.
Qed.

Lemma is_ws_line_feed : is_ws [ascii_of_nat 10] = true.
Proof. reflexivity. Qed.

Lemma is_ws_line_feed_more (c : ascii) (t : list ascii) :
  is_ws (ascii_of_nat 10 :: c :: t) = false.
Proof. destruct t as [|d [|e t]]; reflexivity. Qed.

(** ** Tokens of a line *)

Definition no_ws (t : list (list ascii)) : Prop :=
  Forall (fun ch => is_ws ch = false) t.

(** A non-empty string none of whose characters is white space. *)
Definition token (s : string) : Prop :=
  s <> "" /\ no_ws (chars (list_ascii_of_string s)).

Fixpoint ends_nonws (l : list (list ascii)) : bool :=
  match l with
  | [] => false
  | c :: r =>
      match r with
      | [] => negb (is_ws c)
      | _ :: _ => ends_nonws r
      end
  end.

Definition starts_nonws (l : list (list ascii)) : bool :=
  match l with
  | [] => false
  | c :: _ => negb (is_ws c)
  end.

Lemma cons_head_Forall {A : Type} (P : list A -> Prop) (c : A)
      (parts : list (list A)) :
  (forall t, P t -> P (c :: t)) -> P [c] -> Forall P parts ->
  Forall P (cons_head c parts).
Proof.
  intros Hc H1 Hp. destruct Hp as [|t ts Ht Hts]; simpl.
  - now repeat constructor.
  - constructor; auto.
Qed.

Lemma split_ws_chars_no_ws (l : list (list ascii)) (in_sep : bool) :
  Forall no_ws (split_ws_chars in_sep l).
Proof.
  revert in_sep. induction l as [|c r IH]; intros in_sep; simpl.
  - repeat constructor.
  - destruct (is_ws c) eqn:E.
    + destruct in_sep; [apply IH|]. constructor; [constructor | apply IH].
    + apply cons_head_Forall; [| |apply IH].
      * intros t Ht. now constructor.
      * now repeat constructor.
Qed.

Lemma split_ws_chars_Forall (P : list ascii -> Prop) (l : list (list ascii))
      (in_sep : bool) :
  Forall P l -> Forall (Forall P) (split_ws_chars in_sep l).
Proof.
  intros H. revert in_sep. induction H as [|c r Hc _ IH]; intros in_sep; simpl.
  - repeat constructor.
  - destruct (is_ws c).
    + destruct in_sep; [apply IH|]. constructor; [constructor | apply IH].
    + apply cons_head_Forall; [| |apply IH].
      * intros t Ht. now constructor.
      * now repeat constructor.
Qed.

Lemma split_ws_chars_nonempty (l : list (list ascii)) :
  ends_nonws l = true ->
  forall in_sep : bool,
    match split_ws_chars in_sep l with
    | [] => False
    | t :: ts =>
        Forall (fun t => t <> []) ts
        /\ (in_sep = true \/ starts_nonws l = true -> t <> [])
    end.
Proof.
  induction l as [|c r IH]; intros He in_sep; [discriminate|].
  destruct r as [|c' r'].
  - simpl in He. apply negb_true_iff in He. simpl. rewrite He. simpl.
    split; [constructor | discriminate].
  - assert (He' : ends_nonws (c' :: r') = true) by exact He.
    change (split_ws_chars in_sep (c :: c' :: r'))
      with (if is_ws c
            then (if in_sep then split_ws_chars true (c' :: r')
                  else [] :: split_ws_chars true (c' :: r'))
            else cons_head c (split_ws_chars false (c' :: r'))).
    destruct (is_ws c) eqn:E.
    + specialize (IH He' true).
      destruct (split_ws_chars true (c' :: r')) as [|t ts]; [destruct IH|].
      destruct IH as [Hts Ht]. destruct in_sep.
      * split; [exact Hts|]. intros _. apply Ht. now left.
      * split.
        -- constructor; [apply Ht; now left | exact Hts].
        -- unfold starts_nonws. rewrite E. simpl.
           intros [H|H]; discriminate H.
    + specialize (IH He' false).
      destruct (split_ws_chars false (c' :: r')) as [|t ts]; [destruct IH|].
      destruct IH as [Hts _]. simpl. split; [exact Hts | discriminate].
Qed.

(** Each token is a run of consecutive characters of the line, the first
    one from its start when the line does not begin inside a separator. *)
Lemma split_ws_chars_infix (l : list (list ascii)) :
  forall in_sep : bool,
    Forall (fun t => exists p q, l = p ++ t ++ q) (split_ws_chars in_sep l)
    /\ (in_sep = false ->
        match split_ws_chars in_sep l with
        | [] => False
        | t :: _ => exists q, l = t ++ q
        end).
Proof.
  induction l as [|g r IH]; intros in_sep; simpl.
  - split; [|intros _; now exists []].
    repeat constructor. now exists [], [].
  - assert (Hshift : forall ts,
               Forall (fun t => exists p q, r = p ++ t ++ q) ts ->
               Forall (fun t => exists p q, g :: r = p ++ t ++ q) ts).
    { intros ts Hts. eapply Forall_impl; [exact Hts|].
      intros t [p [q ->]]. now exists (g :: p), q. }
    destruct (is_ws g).
    + destruct (IH true) as [Hall _]. destruct in_sep.
      * split; [now apply Hshift | discriminate].
      * split; [|intros _; now exists (g :: r)].
        constructor; [now exists [], (g :: r) | now apply Hshift].
    + destruct (IH false) as [Hall Hpre]. specialize (Hpre eq_refl).
      destruct (split_ws_chars false r) as [|t ts]; [destruct Hpre|].
      destruct Hpre as [q Hq]. inversion Hall as [|x xs _ Hts]; subst.
      simpl. split; [|intros _; now exists q].
      constructor; [|now apply Hshift].
      now exists [], q.
Qed.

Lemma ends_nonws_snoc (l : list (list ascii)) (c : list ascii) :
  ends_nonws (l ++ [c]) = negb (is_ws c).
Proof.
  induction l as [|x l IH]; simpl; [reflexivity|].
  destruct (l ++ [c]) eqn:E; [destruct l; discriminate E | exact IH].
Qed.

Lemma drop_ws_head (l : list (list ascii)) :
  drop_ws l = [] \/ starts_nonws (drop_ws l) = true.
Proof.
  induction l as [|c r IH]; simpl; [now left|].
  destruct (is_ws c) eqn:E; [exact IH|]. right. simpl. now rewrite E.
Qed.

Lemma drop_ws_suffix (l : list (list ascii)) :
  exists p, l = p ++ drop_ws l.
Proof.
  induction l as [|c r [p IH]]; simpl; [now exists []|].
  destruct (is_ws c); [|now exists []].
  exists (c :: p). simpl. now rewrite <- IH.
Qed.

Lemma trim_chars_infix (l : list (list ascii)) :
  exists p q, l = p ++ trim_chars l ++ q.
Proof.
  unfold trim_chars.
  destruct (drop_ws_suffix l) as [p Hp].
  destruct (drop_ws_suffix (rev (drop_ws l))) as [q Hq].
  exists p, (rev q). rewrite <- rev_app_distr, <- Hq, rev_involutive.
  exact Hp.
Qed.

Lemma trim_chars_ends (l : list (list ascii)) :
  trim_chars l = []
  \/ (starts_nonws (trim_chars l) = true /\ ends_nonws (trim_chars l) = true).
Proof.
  unfold trim_chars.
  destruct (drop_ws_head (rev (drop_ws l))) as [E|Hy]; [rewrite E; now left|].
  right.
  destruct (drop_ws (rev (drop_ws l))) as [|y ys] eqn:EY; [discriminate|].
  simpl in Hy. split.
  - destruct (drop_ws_suffix (rev (drop_ws l))) as [p Hp]. rewrite EY in Hp.
    assert (Hx : drop_ws l = rev (y :: ys) ++ rev p).
    { rewrite <- rev_app_distr, <- Hp. now rewrite rev_involutive. }
    destruct (drop_ws_head l) as [E0|Hh].
    + rewrite E0 in Hx. simpl in Hx.
      destruct (rev ys); discriminate Hx.
    + rewrite Hx in Hh. destruct (rev (y :: ys)) as [|z zs] eqn:EZ.
      * simpl in EZ. destruct (rev ys); discriminate EZ.
      * exact Hh.
  - simpl. now rewrite ends_nonws_snoc.
Qed.

Lemma trim_list (s : string) :
  list_ascii_of_string (trim s)
  = concat (trim_chars (chars (list_ascii_of_string s))).
Proof. unfold trim. apply list_ascii_of_string_of_list_ascii. Qed.

Lemma trim_chars_segmented (l : list ascii) :
  segmented (trim_chars (chars l)).
Proof.
  destruct (trim_chars_infix (chars l)) as [p [q H]].
  apply (segmented_infix p _ q). rewrite <- H. apply chars_segmented.
Qed.

Lemma trim_chars_groups (l : list ascii) :
  Forall (fun g => g <> []) (trim_chars (chars l)).
Proof.
  destruct (trim_chars_infix (chars l)) as [p [q H]].
  pose proof (chars_groups_nonempty l) as Hall. rewrite H in Hall.
  apply Forall_app in Hall. destruct Hall as [_ Hall].
  now apply Forall_app in Hall.
Qed.

Lemma concat_nonempty (t : list (list ascii)) :
  t <> [] -> Forall (fun g => g <> []) t -> concat t <> [].
Proof.
  intros Hne Hall. destruct Hall as [|g gs Hg _]; [congruence|].
  simpl. destruct g; [congruence | discriminate].
Qed.

Lemma string_of_list_nonempty (t : list ascii) :
  t <> [] -> string_of_list_ascii t <> "".
Proof. destruct t; [congruence | discriminate]. Qed.

Lemma truthy_true (s : string) : truthy s = true <-> s <> "".
Proof.
  unfold truthy. rewrite negb_true_iff. split.
  - intros H ->. discriminate H.
  - intros H. destruct (String.eqb_spec s ""); congruence.
Qed.

(** The tokens of a trimmed non-blank line: at least one, each non-empty
    and without a white-space character. *)
Lemma split_ws_trim_tokens (line : string) :
  truthy (trim line) = true ->
  split_ws (trim line) <> [] /\ Forall token (split_ws (trim line)).
Proof.
  intros Ht. apply truthy_true in Ht. unfold split_ws. rewrite trim_list.
  set (T := trim_chars (chars (list_ascii_of_string line))) in *.
  pose proof (trim_chars_segmented (list_ascii_of_string line)) as Hseg.
  pose proof (trim_chars_groups (list_ascii_of_string line)) as Hgr.
  fold T in Hseg, Hgr. rewrite (seg_chars T Hseg).
  assert (Hne : T <> []).
  { intros E. apply Ht. unfold trim. fold T. now rewrite E. }
  destruct (trim_chars_ends (chars (list_ascii_of_string line)))
    as [E|[Hs He]]; [fold T in E; congruence|]. fold T in Hs, He.
  pose proof (split_ws_chars_nonempty T He false) as Hn.
  pose proof (split_ws_chars_no_ws T false) as Hw.
  pose proof (split_ws_chars_Forall _ T false Hgr) as Hg.
  destruct (split_ws_chars_infix T false) as [Hin _].
  destruct (split_ws_chars false T) as [|t ts]; [destruct Hn|].
  destruct Hn as [Hts Ht0]. split; [discriminate|].
  assert (Hall : Forall (fun t => t <> [] /\ no_ws t
                                  /\ Forall (fun g => g <> []) t
                                  /\ segmented t) (t :: ts)).
  { assert (Hne' : Forall (fun t => t <> []) (t :: ts)).
    { constructor; [apply Ht0; now right | exact Hts]. }
    clear -Hne' Hw Hg Hin Hseg.
    induction Hne' as [|x xs Hx _ IH]; [constructor|].
    inversion Hw; subst. inversion Hg; subst. inversion Hin; subst.
    constructor; [|now apply IH].
    repeat split; try assumption.
    match goal with
    | H : exists p q, T = p ++ x ++ q |- _ => destruct H as [p [q Hpq]]
    end.
    apply (segmented_infix p x q). now rewrite <- Hpq. }
  clear -Hall. induction Hall as [|x xs [Hx1 [Hx2 [Hx3 Hx4]]] _ IH]; simpl;
    constructor; [|exact IH].
  split.
  - apply string_of_list_nonempty. now apply concat_nonempty.
  - rewrite list_ascii_of_string_of_list_ascii, (seg_chars x Hx4). exact Hx2.
Qed.

(** ** File import *)

(** A card as a line of a card file describes it. *)
Definition parsed_card (c : Card) : Prop :=
  token (card_id c)
  /\ card_words c <> []
  /\ Forall token (card_words c)
  /\ card_language c = detectLanguage (length (card_words c))
  /\ transmitted c = false
  /\ markedWords c = [].

Lemma parseTxtFile_lines_parsed (lines : list string) :
  Forall (fun line => truthy (trim line) = true) lines ->
  Forall parsed_card (parseTxtFile_lines lines).
Proof.
  induction 1 as [|line rest Hline _ IH]; simpl; [constructor|].
  destruct (split_ws_trim_tokens line Hline) as [_ Htok].
  destruct (length (split_ws (trim line)) <? 2) eqn:E2; [exact IH|].
  destruct (split_ws (trim line)) as [|id words]; [exact IH|].
  destruct (length words =? 0) eqn:E0; [exact IH|].
  inversion Htok; subst. constructor; [|exact IH].
  repeat split; simpl; try assumption; try tauto.
  - now destruct H1.
  - now destruct H1.
  - intros ->. discriminate E0.
Qed.

Lemma parseTxtFile_unfold (content : string) :
  parseTxtFile content
  = parseTxtFile_lines
      (List.filter (fun line => truthy (trim line)) (split_lines content)).
Proof.
  unfold parseTxtFile.
  destruct (List.filter _ (split_lines content)); reflexivity.
Qed.

Lemma parseTxtFile_lines_length (lines : list string) :
  length (parseTxtFile_lines lines) <= length lines.
Proof.
  induction lines as [|line rest IH]; simpl; [lia|].
  destruct (length (split_ws (trim line)) <? 2); [lia|].
  destruct (split_ws (trim line)) as [|id words]; [lia|].
  destruct (length words =? 0); simpl; lia.
Qed.

(** X2.  Every card that [parseTxtFile] yields has an id that is a
    non-empty token without white space, at least one word, words that are
    such tokens too, the language that [detectLanguage] gives for the number
    of its words, [transmitted] false and no marked word; and there are at
    most as many cards as lines. *)
Theorem parseTxtFile_cards (content : string) :
  Forall parsed_card (parseTxtFile content)
  /\ length (parseTxtFile content) <= length (split_lines content).
Proof.
  rewrite parseTxtFile_unfold. split.
  - apply parseTxtFile_lines_parsed. apply Forall_forall. intros line Hin.
    apply list_elem_of_In, filter_In in Hin. tauto.
  - etransitivity; [apply parseTxtFile_lines_length|].
    apply List.filter_length_le.
Qed.

Lemma list_ascii_of_string_app (a b : string) :
  list_ascii_of_string (a ++ b)%string
  = list_ascii_of_string a ++ list_ascii_of_string b.
Proof. induction a as [|c a IH]; simpl; [reflexivity | now rewrite IH]. Qed.

Lemma split_chars_nonempty (sep : ascii) (l : list ascii) :
  split_chars sep l <> [].
Proof.
  destruct l as [|c r]; simpl; [discriminate|].
  destruct (Ascii.eqb c sep); [discriminate|].
  destruct (split_chars sep r); discriminate.
Qed.

Lemma split_chars_app (sep : ascii) (x y : list ascii) :
  split_chars sep (x ++ sep :: y) = split_chars sep x ++ split_chars sep y.
Proof.
  induction x as [|c x IH]; simpl.
  - now rewrite Ascii.eqb_refl.
  - destruct (Ascii.eqb c sep); rewrite IH; [reflexivity|].
    pose proof (split_chars_nonempty sep x) as Hne.
    destruct (split_chars sep x); [congruence | reflexivity].
Qed.

Lemma parseTxtFile_lines_app (l1 l2 : list string) :
  parseTxtFile_lines (l1 ++ l2)
  = parseTxtFile_lines l1 ++ parseTxtFile_lines l2.
Proof.
  induction l1 as [|line rest IH]; simpl; [reflexivity|].
  destruct (length (split_ws (trim line)) <? 2); [exact IH|].
  destruct (split_ws (trim line)) as [|id words]; [exact IH|].
  destruct (length words =? 0); [exact IH|]. simpl. now rewrite IH.
Qed.

(** X3.  Parsing is line by line: the cards of two texts joined by a line
    feed are the cards of the first followed by the cards of the second. *)
Theorem parseTxtFile_joined (a b : string) :
  parseTxtFile (a ++ String (ascii_of_nat 10) b)%string
  = parseTxtFile a ++ parseTxtFile b.
Proof.
  rewrite !parseTxtFile_unfold. unfold split_lines.
  rewrite list_ascii_of_string_app. simpl list_ascii_of_string.
  rewrite split_chars_app, map_app, List.filter_app.
  apply parseTxtFile_lines_app.
Qed.

(** ** What the sequencer leaves alone *)

(** Everything of a card but its [transmitted] flag. *)
Definition card_content (c : Card) : string * list string * string * list string :=
  (card_id c, card_words c, card_language c, markedWords c).

(** The state outside the store, the loop flag, the frames sent and the
    pending callbacks. *)
Definition ui (s : App) :=
  (showStartModal s, showLoadModal s, manualInput s, manualCardId s,
   userName s, socketRef s, socketReady s, selectedCardIndex s,
   (currentWord s, currentLanguage s, playerCount s, gameStarted s),
   (winners s, showWinnersModal s, roundWinners s, roundLanguage s,
    showRoundWinnersModal s)).

Lemma sendBingoCard_ui (c : Card) (s : App) : ui (sendBingoCard c s) = ui s.
Proof. unfold sendBingoCard. destruct (socketRef s) as [[]|]; reflexivity. Qed.

Lemma transmitNextCard_ui (s : App) : ui (transmitNextCard s) = ui s.
Proof.
  destruct (transmitNextCard_cases s)
    as [[_ ->]|[done [c [rest [_ [_ [_ ->]]]]]]]; [reflexivity|].
  rewrite <- (sendBingoCard_ui c s). reflexivity.
Qed.

Lemma transmitNextCard_content (s : App) :
  map card_content (bingoCards (transmitNextCard s))
  = map card_content (bingoCards s).
Proof.
  destruct (transmitNextCard_cases s)
    as [[_ ->]|[done [c [rest [Hs [_ [_ ->]]]]]]]; [reflexivity|].
  simpl. rewrite Hs, !map_app. reflexivity.
Qed.

Lemma transmission_effect_ui (s : App) : ui (transmission_effect s) = ui s.
Proof.
  unfold transmission_effect.
  destruct (length (bingoCards s) =? 0); [reflexivity|].
  destruct (_ && _); [|reflexivity].
  now rewrite transmitNextCard_ui.
Qed.

Lemma transmission_effect_content (s : App) :
  map card_content (bingoCards (transmission_effect s))
  = map card_content (bingoCards s).
Proof.
  unfold transmission_effect.
  destruct (length (bingoCards s) =? 0); [reflexivity|].
  destruct (_ && _); [|reflexivity].
  now rewrite transmitNextCard_content.
Qed.

Lemma load_modal_effect_nonempty (s : App) :
  bingoCards s <> [] -> load_modal_effect s = s.
Proof.
  intros H. unfold load_modal_effect.
  destruct (bingoCards s); [congruence|]. simpl. now rewrite andb_false_r.
Qed.

Lemma commit_bingoCards_ui (value : list Card) (s : App) :
  value <> [] -> ui (commit_bingoCards value s) = ui s.
Proof.
  intros Hne. unfold commit_bingoCards.
  destruct (length value =? length (bingoCards s)); [reflexivity|].
  rewrite load_modal_effect_nonempty by exact Hne.
  now rewrite transmission_effect_ui.
Qed.

Lemma commit_bingoCards_content (value : list Card) (s : App) :
  map card_content (bingoCards (commit_bingoCards value s))
  = map card_content value.
Proof.
  unfold commit_bingoCards.
  destruct (length value =? length (bingoCards s)); [reflexivity|].
  rewrite transmission_effect_content.
  destruct (load_modal_effect_store (setBingoCards value s)) as [E _].
  now rewrite E.
Qed.

(** ** Manual entry *)

(** The words that [handleManualSubmit] reads from the text area. *)
Definition manual_words (s : App) : list string :=
  List.filter truthy (map trim (split_lines (manualInput s))).

(** X4.  When the card id is blank, or the word list is blank, manual
    entry changes nothing at all: no card, no frame, and the dialog stays
    open with what was typed. *)
Theorem manual_submit_rejects_blank (s : App) :
  trim (manualCardId s) = "" \/ trim (manualInput s) = ""
  \/ manual_words s = [] ->
  handleManualSubmit s = s.
Proof.
  intros H. unfold handleManualSubmit. fold (manual_words s).
  destruct (truthy (trim (manualCardId s))) eqn:E1; [|reflexivity].
  destruct (truthy (trim (manualInput s))) eqn:E2; [|reflexivity]. simpl.
  apply truthy_true in E1. apply truthy_true in E2.
  destruct H as [H|[H|H]]; try congruence.
  now rewrite H.
Qed.

(** U+00A0 and U+3000 as strings. *)
Definition no_break_space : string :=
  String (ascii_of_nat 194) (String (ascii_of_nat 160) "").

Definition ideographic_space : string :=
  String (ascii_of_nat 227) (String (ascii_of_nat 128)
    (String (ascii_of_nat 128) "")).

Example trim_beyond_ascii :
  trim (no_break_space ++ "SOL LUNA" ++ ideographic_space)%string = "SOL LUNA"
  /\ split_ws ("c1" ++ no_break_space ++ "SOL" ++ ideographic_space ++ "LUNA")%string
     = ["c1"; "SOL"; "LUNA"].
Proof. split; reflexivity. Qed.

Lemma manual_submit_rejects_blank_witness :
  let s := setManualInput "SOL"
             (setManualCardId (" " ++ no_break_space)%string initial) in
  handleManualSubmit s = s.
Proof.
  intros s. apply (manual_submit_rejects_blank s). left. reflexivity.
Defined.

Definition all_ws (l : list (list ascii)) : Prop :=
  Forall (fun c => is_ws c = true) l.

(** A byte sequence all of whose characters are white space. *)
Definition blank (l : list ascii) : Prop := all_ws (chars l).

Lemma drop_ws_nil (l : list (list ascii)) : drop_ws l = [] <-> all_ws l.
Proof.
  unfold all_ws. induction l as [|c l IH]; simpl.
  - split; [constructor | reflexivity].
  - destruct (is_ws c) eqn:E.
    + rewrite IH. split; [now constructor | now inversion 1].
    + split; [discriminate|]. inversion 1; congruence.
Qed.

Lemma trim_chars_nil (l : list (list ascii)) : trim_chars l = [] <-> all_ws l.
Proof.
  unfold trim_chars. split.
  - intros H. apply drop_ws_nil.
    assert (Hr : drop_ws (rev (drop_ws l)) = []).
    { destruct (drop_ws (rev (drop_ws l))); [reflexivity|].
      apply (f_equal (@length (list ascii))) in H.
      rewrite length_rev in H. discriminate H. }
    apply drop_ws_nil in Hr.
    destruct (drop_ws_head l) as [E|Hh]; [exact E|].
    destruct (drop_ws l) as [|x xs]; [reflexivity|].
    simpl in Hh. apply negb_true_iff in Hh.
    unfold all_ws in Hr. rewrite Forall_forall in Hr.
    assert (Hx : x ∈ rev (x :: xs)).
    { apply list_elem_of_In, in_rev. rewrite rev_involutive. now left. }
    specialize (Hr x Hx). congruence.
  - intros H. apply drop_ws_nil in H. now rewrite H.
Qed.

(** [s.trim()] is empty exactly when [s] is blank. *)
Lemma trim_empty (s : string) :
  trim s = "" <-> blank (list_ascii_of_string s).
Proof.
  unfold blank. rewrite <- trim_chars_nil. split.
  - intros E. apply (f_equal list_ascii_of_string) in E.
    rewrite trim_list in E. simpl in E.
    pose proof (trim_chars_groups (list_ascii_of_string s)) as Hg.
    destruct (trim_chars (chars (list_ascii_of_string s))) as [|g gs];
      [reflexivity|].
    inversion Hg; subst. destruct g; [congruence | discriminate E].
  - intros E. unfold trim. now rewrite E.
Qed.

Lemma blank_next (l : list ascii) : blank l -> next_is_cont l = false.
Proof.
  destruct l as [|c r]; [reflexivity|]. unfold blank. intros H.
  destruct (chars_head c r) as [t [gs Hc]]. rewrite Hc in H.
  inversion H as [|g gs' Hg _]; subst.
  apply is_ws_lead in Hg. exact (proj1 Hg).
Qed.

(** Two texts joined by a line feed are blank when both are. *)
Lemma blank_joined (t rest : list ascii) :
  blank (t ++ ascii_of_nat 10 :: rest) <-> blank t /\ blank rest.
Proof.
  unfold blank at 1. rewrite chars_app by reflexivity.
  unfold all_ws. rewrite Forall_app. fold (all_ws (chars t)). fold (blank t).
  change (chars (ascii_of_nat 10 :: rest))
    with (if next_is_cont rest
          then cons_head (ascii_of_nat 10) (chars rest)
          else [ascii_of_nat 10] :: chars rest).
  split.
  - intros [Ht Hr]. split; [exact Ht|].
    destruct (next_is_cont rest) eqn:E.
    + destruct rest as [|c2 r']; [discriminate|].
      destruct (chars_head c2 r') as [g [gs Hc]]. rewrite Hc in Hr.
      simpl in Hr. inversion Hr as [|x xs Hx _]; subst.
      rewrite is_ws_line_feed_more in Hx. discriminate Hx.
    + now inversion Hr.
  - intros [Ht Hr]. split; [exact Ht|].
    rewrite (blank_next rest Hr). constructor; [reflexivity | exact Hr].
Qed.

(** The text of which [lines] are the lines. *)
Fixpoint join_lines (lines : list (list ascii)) : list ascii :=
  match lines with
  | [] => []
  | t :: ts =>
      match ts with
      | [] => t
      | _ :: _ => t ++ ascii_of_nat 10 :: join_lines ts
      end
  end.

Lemma join_split_lines (l : list ascii) :
  join_lines (split_chars (ascii_of_nat 10) l) = l.
Proof.
  induction l as [|c r IH]; [reflexivity|]. simpl split_chars.
  pose proof (split_chars_nonempty (ascii_of_nat 10) r) as Hne.
  destruct (split_chars (ascii_of_nat 10) r) as [|t ts]; [congruence|].
  destruct (Ascii.eqb_spec c (ascii_of_nat 10)) as [->|Hc].
  - change (join_lines ([] :: t :: ts))
      with ([] ++ ascii_of_nat 10 :: join_lines (t :: ts)).
    now rewrite IH.
  - simpl cons_head. destruct ts as [|t2 ts]; simpl in *; now rewrite <- IH.
Qed.

Lemma join_lines_blank (lines : list (list ascii)) :
  lines <> [] -> (Forall blank lines <-> blank (join_lines lines)).
Proof.
  induction lines as [|t ts IH]; [congruence|]. intros _.
  destruct ts as [|t2 ts].
  - simpl. split; [now inversion 1 | intros H; now repeat constructor].
  - change (join_lines (t :: t2 :: ts))
      with (t ++ ascii_of_nat 10 :: join_lines (t2 :: ts)).
    rewrite blank_joined, <- IH by discriminate.
    split; [now inversion 1 | intros [H1 H2]; now constructor].
Qed.

(** A text is blank exactly when each of its lines is. *)
Lemma split_lines_blank (l : list ascii) :
  Forall blank (split_chars (ascii_of_nat 10) l) <-> blank l.
Proof.
  rewrite join_lines_blank by apply split_chars_nonempty.
  now rewrite join_split_lines.
Qed.

Lemma trim_line_empty (t : list ascii) :
  trim (string_of_list_ascii t) = "" <-> blank t.
Proof. rewrite trim_empty. now rewrite list_ascii_of_string_of_list_ascii. Qed.

(** A text area holding white space only has no word. *)
Lemma blank_input_no_words (s : App) :
  trim (manualInput s) = "" -> manual_words s = [].
Proof.
  intros E. unfold manual_words, split_lines.
  apply trim_empty, split_lines_blank in E.
  induction E as [|t ts Ht _ IH]; simpl; [reflexivity|].
  apply trim_line_empty in Ht. rewrite Ht. exact IH.
Qed.

Lemma handleManualSubmit_accepts (s : App) :
  trim (manualCardId s) <> "" -> trim (manualInput s) <> "" ->
  manual_words s <> [] ->
  handleManualSubmit s
  = commit_bingoCards
      (bingoCards s
         ++ [{| card_id := trim (manualCardId s);
                card_words := manual_words s;
                card_language := detectLanguage (length (manual_words s));
                transmitted := false; markedWords := [] |}])
      (setShowLoadModal false (setManualCardId "" (setManualInput "" s))).
Proof.
  intros Hid Hinput Hwords. unfold handleManualSubmit. fold (manual_words s).
  apply truthy_true in Hid. apply truthy_true in Hinput.
  rewrite Hid, Hinput.
  destruct (manual_words s) as [|w ws]; [congruence | reflexivity].
Qed.

(** X5.  When the trimmed id and the list of non-blank trimmed lines are
    not empty, manual entry keeps the cards of the store in place and with
    their content, and adds after them one card with the trimmed id, those
    lines as words (none of them empty), the language that [detectLanguage]
    gives for their number and no marked word; the two inputs are cleared,
    the dialog is closed, and the rest of the interface state is as before. *)
Theorem manual_submit_appends (s : App) :
  trim (manualCardId s) <> "" ->
  manual_words s <> [] ->
  let s' := handleManualSubmit s in
  map card_content (bingoCards s')
  = map card_content (bingoCards s)
      ++ [(trim (manualCardId s), manual_words s,
           detectLanguage (length (manual_words s)), [])]
  /\ Forall (fun w => w <> "") (manual_words s)
  /\ ui s' = ui (setShowLoadModal false
                   (setManualCardId "" (setManualInput "" s))).
Proof.
  intros Hid Hwords s'. subst s'.
  assert (Hinput : trim (manualInput s) <> "").
  { intros E. apply Hwords. now apply blank_input_no_words. }
  assert (Hnonblank : Forall (fun w => w <> "") (manual_words s)).
  { unfold manual_words. apply Forall_forall. intros x Hx.
    apply list_elem_of_In, filter_In in Hx. now apply truthy_true. }
  rewrite (handleManualSubmit_accepts s Hid Hinput Hwords).
  rewrite commit_bingoCards_content, map_app.
  split; [reflexivity|]. split; [exact Hnonblank|].
  apply commit_bingoCards_ui. destruct (bingoCards s); discriminate.
Qed.

Lemma manual_submit_appends_witness :
  let s := setManualInput "SOL
 LUNA
" (setManualCardId " c9 " (setShowLoadModal true initial)) in
  map card_content (bingoCards (handleManualSubmit s))
  = [("c9", ["SOL"; "LUNA"], "spanish", [])]
  /\ ui (handleManualSubmit s) = ui initial.
Proof.
  intros s.
  destruct (manual_submit_appends s) as [H1 [_ H3]].
  - discriminate.
  - discriminate.
  - split; [exact H1 | exact H3].
Defined.

(** X6.  A text area that is not blank always yields at least one word: in
    [handleManualSubmit] the test [words.length === 0] never holds once the
    test on [manualInput.trim()] has passed. *)
Theorem nonblank_input_has_words (s : App) :
  trim (manualInput s) <> "" -> manual_words s <> [].
Proof.
  intros Hne Hw. apply Hne. clear Hne.
  apply trim_empty, split_lines_blank.
  unfold manual_words, split_lines in Hw.
  induction (split_chars (ascii_of_nat 10)
               (list_ascii_of_string (manualInput s))) as [|t ts IH];
    [constructor|].
  simpl in Hw.
  destruct (truthy (trim (string_of_list_ascii t))) eqn:E; [discriminate|].
  constructor; [|now apply IH].
  apply trim_line_empty.
  destruct (String.eqb_spec (trim (string_of_list_ascii t)) "") as [e|n];
    [exact e|].
  apply truthy_true in n. congruence.
Qed.

Lemma nonblank_input_has_words_witness :
  manual_words (setManualInput "  SOL  " initial) <> [].
Proof.
  apply (nonblank_input_has_words (setManualInput "  SOL  " initial)).
  discriminate.
Defined.

(** ** What a message leaves alone *)




(** ** The selected index *)

(** X8.  Over a non-empty array of cards the selection callback always
    computes an index of that array, whatever the marks and the language. *)
Theorem select_best_in_range (updated : list Card) (language : js string) :
  updated <> [] -> select_best updated language < length updated.
Proof.
  intros Hne. unfold select_best.
  destruct (forEach_select_tracked language updated []
              {| maxMarked := 0; bestIndex := 0;
                 maxMarkedForLanguage := 0; bestIndexForLanguage := 0 |}
              (tracked_nil any_card) (tracked_nil (in_language language)))
    as [Hall Hlang].
  simpl in Hall, Hlang.
  set (acc := forEach_select language 0 updated _) in *.
  destruct (0 <? maxMarkedForLanguage acc) eqn:E.
  - apply Nat.ltb_lt in E.
    destruct Hlang as [[Hm _]|[_ [c [Hb _]]]]; [lia|].
    now apply lookup_lt_Some in Hb.
  - destruct Hall as [[_ [Hb _]]|[_ [c [Hb _]]]].
    + rewrite Hb. destruct updated; [congruence | simpl; lia].
    + now apply lookup_lt_Some in Hb.
Qed.

Lemma select_best_in_range_witness :
  select_best [card_c1; card_c2] (Some "dutch") < 2.
Proof.
  apply (select_best_in_range [card_c1; card_c2] (Some "dutch")). discriminate.
Defined.

(** ** Properties that every card of the store has *)

Section CardInvariant.

(** A property of cards that flagging and marking keep and that newly made
    cards have. *)
Variable P : Card -> Prop.
Hypothesis P_flag : forall c, P c -> P (with_transmitted c).
Hypothesis P_mark : forall data c, P c -> P (mark_card data c).
Hypothesis P_parse : forall content, Forall P (parseTxtFile content).
Hypothesis P_manual :
  forall s, trim (manualCardId s) <> "" -> manual_words s <> [] ->
    P {| card_id := trim (manualCardId s); card_words := manual_words s;
         card_language := detectLanguage (length (manual_words s));
         transmitted := false; markedWords := [] |}.

Definition task_cards (t : Task) : Prop :=
  match t with
  | ReaderOnload captured _ => Forall P captured
  | _ => True
  end.

Definition all_cards (s : App) : Prop :=
  Forall P (bingoCards s) /\ Forall task_cards (tasks s).

Lemma transmitNextCard_all (s : App) :
  all_cards s -> all_cards (transmitNextCard s).
Proof using P_flag.
  intros [Hc Ht].
  destruct (transmitNextCard_cases s)
    as [[_ ->]|[done [c [rest [Hs [_ [_ ->]]]]]]].
  - split; assumption.
  - destruct (sendBingoCard_store c s) as [_ [E _]].
    unfold all_cards. simpl. rewrite E. split.
    + rewrite Hs in Hc. apply Forall_app in Hc. destruct Hc as [H1 H2].
      apply Forall_app. split; [assumption|].
      inversion H2; subst. constructor; auto.
    + apply Forall_app. split; [assumption|]. repeat constructor.
Qed.

Lemma commit_bingoCards_all (value : list Card) (s : App) :
  Forall P value -> Forall task_cards (tasks s) ->
  all_cards (commit_bingoCards value s).
Proof using P_flag.
  intros Hv Ht. unfold commit_bingoCards.
  destruct (length value =? length (bingoCards s)); [now split|].
  destruct (load_modal_effect_store (setBingoCards value s)) as [E1 [E2 _]].
  unfold transmission_effect.
  destruct (length _ =? 0); [unfold all_cards; rewrite E1, E2; now split|].
  destruct (_ && _); [|unfold all_cards; rewrite E1, E2; now split].
  apply transmitNextCard_all. unfold all_cards. simpl. rewrite E1, E2.
  now split.
Qed.

Lemma handleManualSubmit_all (s : App) :
  all_cards s -> all_cards (handleManualSubmit s).
Proof using P_flag P_manual.
  intros [Hc Ht]. unfold handleManualSubmit. fold (manual_words s).
  destruct (truthy (trim (manualCardId s))) eqn:E1; [|now split].
  destruct (truthy (trim (manualInput s))) eqn:E2; [|now split]. simpl.
  destruct (length (manual_words s) =? 0) eqn:E3; [now split|].
  apply commit_bingoCards_all; [|exact Ht].
  apply Forall_app. split; [exact Hc|]. constructor; [|constructor].
  apply P_manual.
  - now apply truthy_true.
  - intros E. rewrite E in E3. discriminate E3.
Qed.

Lemma fire_all (n : nat) (s : App) : all_cards s -> all_cards (fire n s).
Proof using P_flag P_parse.
  intros [Hc Ht]. unfold fire.
  destruct (tasks s !! n) as [t|] eqn:E; [|now split].
  assert (Hd : Forall task_cards (delete n (tasks s))).
  { now apply Forall_delete. }
  assert (Htask : task_cards t).
  { rewrite Forall_lookup in Ht. exact (Ht n t E). }
  destruct t as [updated language|updatedCards|captured content]; simpl.
  - split; assumption.
  - unfold transmit_timer. destruct (existsb _ _).
    + apply transmitNextCard_all. split; assumption.
    + split; assumption.
  - unfold reader_onload. destruct (0 <? length _); [|now split].
    apply commit_bingoCards_all; [|exact Hd].
    apply Forall_app. split; [exact Htask | apply P_parse].
Qed.

Lemma handleWebSocketMessage_all (data : Data) (s : App) :
  all_cards s -> all_cards (handleWebSocketMessage data s).
Proof using P_mark.
  intros [Hc Ht]. unfold handleWebSocketMessage.
  repeat (destruct (String.eqb (data_type data) _); [| ]);
    try (now split).
  - unfold all_cards. simpl. split.
    + induction Hc; simpl; constructor; auto.
    + apply Forall_app. split; [assumption|]. repeat constructor.
  - destruct (data_winners data) as [w|]; [|now split].
    destruct (0 <? length w); now split.
Qed.

Lemma step_all (s : App) (a : Action) : all_cards s -> all_cards (step s a).
Proof using P_flag P_mark P_parse P_manual.
  intros H. pose proof H as [Hc Ht]. destruct a; simpl.
  - destruct (showStartModal s); [|assumption].
    unfold registerUser. destruct (negb _); [assumption|].
    destruct (load_modal_effect_store
                (setShowStartModal false (setupWebSocket (setUserName name s))))
      as [E1 [E2 _]].
    unfold all_cards. rewrite E1, E2. unfold setupWebSocket.
    destruct (socketRef (setUserName name s)); now split.
  - destruct (socketRef s) as [[]|]; now split.
  - destruct (socketRef s); now split.
  - destruct (socketRef s); [split; constructor | assumption].
  - destruct (socketRef s) as [[]|]; try assumption.
    destruct payload; [|assumption]. now apply handleWebSocketMessage_all.
  - now apply fire_all.
  - destruct (_ && _); [|assumption].
    unfold handlePlay. destruct (socketRef s) as [[]|]; now split.
  - destruct (negb _); [split; constructor | assumption].
  - destruct (_ && _); now split.
  - destruct (_ && _); now split.
  - destruct (showLoadModal s); now split.
  - destruct (showLoadModal s); now split.
  - destruct (showLoadModal s); now split.
  - destruct (showLoadModal s); [|assumption]. now apply handleManualSubmit_all.
  - destruct (showLoadModal s); [|assumption].
    destruct file; [|assumption]. unfold all_cards. simpl.
    split; [assumption|]. apply Forall_app. split; [assumption|].
    constructor; [exact Hc | constructor].
  - destruct (showRoundWinnersModal s); [|assumption].
    destruct (roundWinners s); now split.
Qed.

Lemma run_all (acts : list Action) (s : App) :
  all_cards s -> Forall P (bingoCards (run s acts)).
Proof using P_flag P_mark P_parse P_manual.
  revert s. induction acts as [|a acts IH]; intros s H; simpl.
  - exact (proj1 H).
  - apply IH. now apply step_all.
Qed.

End CardInvariant.

(** A card of the store as the loaders make it and the handlers keep it. *)
Definition well_formed (c : Card) : Prop :=
  card_id c <> ""
  /\ card_words c <> []
  /\ Forall (fun w => w <> "") (card_words c)
  /\ card_language c = detectLanguage (length (card_words c))
  /\ NoDup (markedWords c)
  /\ incl (markedWords c) (card_words c).

Lemma well_formed_flag (c : Card) : well_formed c -> well_formed (with_transmitted c).
Proof. intros H. exact H. Qed.

Lemma well_formed_mark (data : Data) (c : Card) :
  well_formed c -> well_formed (mark_card data c).
Proof.
  intros [H1 [H2 [H3 [H4 [H5 H6]]]]].
  pose proof (mark_card_incl data c H6) as Hincl.
  destruct (mark_card_fields data c) as [E1 [E2 [E3 _]]].
  unfold well_formed. rewrite E1, E3. rewrite E2 in *.
  repeat split; try assumption.
  unfold mark_card.
  destruct (data_card_ids data); [|assumption].
  destruct (data_word data) as [w|]; [|assumption].
  destruct (_ && _); [|assumption].
  destruct (includes (markedWords c) w) eqn:E; simpl; [assumption|].
  apply includes_not_In in E.
  apply NoDup_app. split; [assumption|]. split.
  - intros x Hx Hx'. apply list_elem_of_In in Hx.
    apply list_elem_of_In in Hx'. destruct Hx' as [<-|[]]. contradiction.
  - apply NoDup_singleton.
Qed.

Lemma well_formed_parse (content : string) :
  Forall well_formed (parseTxtFile content).
Proof.
  rewrite parseTxtFile_unfold.
  eapply Forall_impl.
  - apply parseTxtFile_lines_parsed. apply Forall_forall. intros line Hin.
    apply list_elem_of_In, filter_In in Hin. tauto.
  - intros c [[Hid _] [Hw [Htok [Hl [_ Hm]]]]].
    unfold well_formed. rewrite Hm.
    repeat split; try assumption.
    + eapply Forall_impl; [exact Htok|]. intros w [Hne _]. exact Hne.
    + constructor.
    + intros x [].
Qed.

Lemma well_formed_manual (s : App) :
  trim (manualCardId s) <> "" -> manual_words s <> [] ->
  well_formed
    {| card_id := trim (manualCardId s); card_words := manual_words s;
       card_language := detectLanguage (length (manual_words s));
       transmitted := false; markedWords := [] |}.
Proof.
  intros Hid Hw. unfold well_formed. simpl.
  repeat split; try assumption.
  - unfold manual_words. apply Forall_forall. intros x Hx.
    apply list_elem_of_In, filter_In in Hx. now apply truthy_true.
  - constructor.
  - intros x [].
Qed.

Lemma detectLanguage_configured (wordCount : nat) :
  exists config,
    config_lookup LANGUAGE_CONFIGS (detectLanguage wordCount) = Some config.
Proof.
  rewrite detectLanguage_cases.
  repeat (destruct (_ =? wordCount); [eexists; reflexivity|]).
  eexists; reflexivity.
Qed.

(** X9.  In every state the session can reach, each card of the store has
    a non-empty id, at least one word and no empty word, the language that
    [detectLanguage] gives for the number of its words, which is a declared
    language, and marked words without repetition; so the counter of the
    grid never shows more marked words than words, and every marked word
    has a cell rendered as marked. *)
Theorem store_cards_well_formed (acts : list Action) :
  Forall (fun c =>
            well_formed c
            /\ (exists config,
                  config_lookup LANGUAGE_CONFIGS (card_language c) = Some config)
            /\ fst (grid_counter c) <= snd (grid_counter c)
            /\ forall w, In w (markedWords c) -> In (w, true) (grid_cells c))
         (bingoCards (run initial acts)).
Proof.
  eapply Forall_impl.
  - apply (run_all well_formed well_formed_flag well_formed_mark
             well_formed_parse well_formed_manual acts initial).
    split; constructor.
  - intros c Hwf. split; [exact Hwf|].
    destruct Hwf as [_ [_ [_ [Hl [Hnd Hincl]]]]]. split; [|split].
    + rewrite Hl. apply detectLanguage_configured.
    + simpl. apply submseteq_length, NoDup_submseteq; [exact Hnd|].
      intros x Hx. apply list_elem_of_In, Hincl, list_elem_of_In, Hx.
    + intros w Hw. unfold grid_cells. apply in_map_iff. exists w.
      split; [|now apply Hincl].
      apply includes_In in Hw. now rewrite Hw.
Qed.

(** ** Registration *)

Definition is_register_frame (j : json) : bool :=
  match member "type" j with
  | Some (JString t) => String.eqb t "register"
  | _ => false
  end.

Definition session (s : App) : option ReadyState * string * bool :=
  (socketRef s, userName s, showStartModal s).

(** From [s] to [s'] only card frames were sent, and only on an open
    socket; socket, name and start dialog are the same. *)
Definition sends_cards (s s' : App) : Prop :=
  session s' = session s
  /\ exists extra : list json,
       sent s' = sent s ++ extra
       /\ Forall (fun f => is_bingo_card_frame f = true) extra
       /\ (socketRef s <> Some OPEN -> extra = []).

Lemma sends_cards_refl (s s' : App) :
  session s' = session s -> sent s' = sent s -> sends_cards s s'.
Proof.
  intros H1 H2. split; [exact H1|]. exists []. rewrite app_nil_r.
  repeat split; auto.
Qed.

Lemma sends_cards_trans (s1 s2 s3 : App) :
  sends_cards s1 s2 -> sends_cards s2 s3 -> sends_cards s1 s3.
Proof.
  intros [E1 [x1 [S1 [F1 N1]]]] [E2 [x2 [S2 [F2 N2]]]].
  split; [congruence|]. exists (x1 ++ x2).
  split; [now rewrite S2, S1, app_assoc|].
  split; [apply Forall_app; now split|].
  intros Hn. rewrite (N1 Hn). rewrite N2; [reflexivity|].
  unfold session in E1. congruence.
Qed.

Lemma sendBingoCard_cases (c : Card) (s : App) :
  (socketRef s <> Some OPEN /\ sendBingoCard c s = s)
  \/ (socketRef s = Some OPEN
      /\ sendBingoCard c s = setSent (sent s ++ [bingo_card_frame c]) s).
Proof.
  unfold sendBingoCard. destruct (socketRef s) as [[]|];
    try (left; split; [discriminate | reflexivity]).
  right. now split.
Qed.

Lemma transmitNextCard_sends (s : App) : sends_cards s (transmitNextCard s).
Proof.
  destruct (transmitNextCard_cases s)
    as [[_ ->]|[done [c [rest [_ [_ [_ ->]]]]]]].
  - now apply sends_cards_refl.
  - destruct (sendBingoCard_cases c s) as [[Hc ->]|[Ho ->]].
    + now apply sends_cards_refl.
    + split; [reflexivity|]. exists [bingo_card_frame c]. simpl.
      split; [reflexivity|]. split; [now repeat constructor | congruence].
Qed.

Lemma transmission_effect_sends (s : App) :
  sends_cards s (transmission_effect s).
Proof.
  unfold transmission_effect.
  destruct (length (bingoCards s) =? 0); [now apply sends_cards_refl|].
  destruct (_ && _); [|now apply sends_cards_refl].
  apply (sends_cards_trans s (setIsTransmitting true s));
    [now apply sends_cards_refl | apply transmitNextCard_sends].
Qed.

Lemma commit_bingoCards_sends (value : list Card) (s : App) :
  sends_cards s (commit_bingoCards value s).
Proof.
  unfold commit_bingoCards.
  destruct (length value =? length (bingoCards s));
    [now apply sends_cards_refl|].
  apply (sends_cards_trans s (load_modal_effect (setBingoCards value s)));
    [|apply transmission_effect_sends].
  unfold load_modal_effect. destruct (_ && _); now apply sends_cards_refl.
Qed.

Lemma handleManualSubmit_sends (s : App) :
  sends_cards s (handleManualSubmit s).
Proof.
  unfold handleManualSubmit.
  destruct (_ || _); [now apply sends_cards_refl|].
  destruct (length _ =? 0); [now apply sends_cards_refl|].
  eapply sends_cards_trans; [|apply commit_bingoCards_sends].
  now apply sends_cards_refl.
Qed.

Lemma fire_sends (n : nat) (s : App) : sends_cards s (fire n s).
Proof.
  unfold fire. destruct (tasks s !! n) as [t|]; [|now apply sends_cards_refl].
  apply (sends_cards_trans s (setTasks (delete n (tasks s)) s));
    [now apply sends_cards_refl|].
  destruct t as [updated language|updatedCards|captured content]; simpl.
  - now apply sends_cards_refl.
  - unfold transmit_timer. destruct (existsb _ _);
      [apply transmitNextCard_sends | now apply sends_cards_refl].
  - unfold reader_onload. destruct (0 <? length _);
      [|now apply sends_cards_refl].
    eapply sends_cards_trans; [|apply commit_bingoCards_sends].
    now apply sends_cards_refl.
Qed.

(** Nothing is sent before the socket opens; then the registration with the
    user's name comes first and is never repeated. *)
Definition registered (s : App) : Prop :=
  (socketRef s = None \/ showStartModal s = false)
  /\ (socketRef s = None \/ socketRef s = Some CONNECTING -> sent s = [])
  /\ (socketRef s = Some OPEN -> sent s <> [])
  /\ (sent s = []
      \/ exists rest,
           sent s = register_frame (userName s) :: rest
           /\ Forall (fun f => is_register_frame f = false) rest).

Lemma card_frame_not_register (f : json) :
  is_bingo_card_frame f = true -> is_register_frame f = false.
Proof.
  unfold is_bingo_card_frame, is_register_frame.
  destruct (member "type" f) as [[t| |]|]; try discriminate.
  intros H. apply String.eqb_eq in H. now subst.
Qed.

Lemma classic_open (s : App) :
  socketRef s = Some OPEN \/ socketRef s <> Some OPEN.
Proof. destruct (socketRef s) as [[]|]; auto; right; discriminate. Qed.

Lemma registered_sends (s s' : App) :
  sends_cards s s' -> registered s -> registered s'.
Proof.
  intros [Es [extra [Hs [Hf Hn]]]] [H1 [H2 [H3 H4]]].
  unfold session in Es. injection Es as E1 E2 E3.
  unfold registered. rewrite E1, E2, E3, Hs.
  split; [exact H1|]. split; [|split].
  - intros H. rewrite Hn, app_nil_r; [now apply H2|].
    destruct H as [H|H]; rewrite H; discriminate.
  - intros H. specialize (H3 H). destruct (sent s); [congruence | discriminate].
  - destruct H4 as [H4|[rest [H4 H5]]].
    + destruct (classic_open s) as [Ho|Hc].
      * specialize (H3 Ho). congruence.
      * rewrite (Hn Hc), app_nil_r. now left.
    + right. exists (rest ++ extra). rewrite H4. split; [reflexivity|].
      apply Forall_app. split; [exact H5|].
      eapply Forall_impl; [exact Hf|]. exact card_frame_not_register.
Qed.

Lemma handleWebSocketMessage_sends (data : Data) (s : App) :
  sends_cards s (handleWebSocketMessage data s).
Proof.
  unfold handleWebSocketMessage.
  repeat (destruct (String.eqb (data_type data) _); [| ]);
    try (now apply sends_cards_refl).
  destruct (data_winners data) as [w|]; [|now apply sends_cards_refl].
  destruct (0 <? length w); now apply sends_cards_refl.
Qed.

Lemma registered_initial : registered initial.
Proof.
  unfold registered. simpl. repeat split; auto; discriminate.
Qed.

Lemma step_registered (s : App) (a : Action) :
  registered s -> registered (step s a).
Proof.
  intros Hr. pose proof Hr as [H1 [H2 [H3 H4]]]. destruct a; simpl.
  - destruct (showStartModal s) eqn:Em; [|exact Hr].
    destruct H1 as [Hnone|Hf]; [|congruence].
    unfold registerUser. destruct (negb (truthy name)); [exact Hr|].
    assert (Hsent : sent s = []) by (apply H2; now left).
    apply (registered_sends
             (setShowStartModal false (setupWebSocket (setUserName name s)))).
    { unfold load_modal_effect. destruct (_ && _); now apply sends_cards_refl. }
    unfold registered, setupWebSocket. simpl. rewrite Hnone. simpl.
    rewrite Hsent. split; [now right|]. split; [reflexivity|].
    split; [discriminate | now left].
  - destruct (socketRef s) as [[]|] eqn:E; try exact Hr.
    assert (Hsent : sent s = []) by (apply H2; now right).
    unfold registered. simpl. rewrite Hsent. simpl.
    split; [destruct H1 as [H1|H1]; [discriminate | now right]|].
    split; [intros [H|H]; discriminate H|].
    split; [discriminate|]. right. exists []. split; [reflexivity|constructor].
  - destruct (socketRef s) as [r|] eqn:E; [|exact Hr].
    unfold registered. simpl.
    split; [destruct H1 as [H1|H1]; [discriminate | now right]|].
    split; [intros [H|H]; discriminate H|].
    split; [discriminate | exact H4].
  - destruct (socketRef s); [apply registered_initial | exact Hr].
  - destruct (socketRef s) as [[]|] eqn:E; try exact Hr.
    destruct payload as [data|]; [|exact Hr].
    apply (registered_sends s); [apply handleWebSocketMessage_sends | exact Hr].
  - apply (registered_sends s); [apply fire_sends | exact Hr].
  - destruct (_ && _); [|exact Hr].
    unfold handlePlay. destruct (socketRef s) as [[]|] eqn:E; try exact Hr.
    unfold registered. simpl. rewrite E.
    split; [exact H1|]. split; [intros [H|H]; discriminate H|].
    split; [destruct (sent s); discriminate|].
    destruct H4 as [H4|[rest [H4 H5]]]; [now specialize (H3 eq_refl)|].
    right. exists (rest ++ [play_frame]). rewrite H4.
    split; [reflexivity|]. apply Forall_app. split; [exact H5|].
    now repeat constructor.
  - destruct (negb _); [apply registered_initial | exact Hr].
  - destruct (_ && _); exact Hr.
  - destruct (_ && _); exact Hr.
  - destruct (showLoadModal s); exact Hr.
  - destruct (showLoadModal s); exact Hr.
  - destruct (showLoadModal s); exact Hr.
  - destruct (showLoadModal s); [|exact Hr].
    apply (registered_sends s); [apply handleManualSubmit_sends | exact Hr].
  - destruct (showLoadModal s); [|exact Hr]. destruct file; exact Hr.
  - destruct (showRoundWinnersModal s); [|exact Hr].
    destruct (roundWinners s); exact Hr.
Qed.

(** X10.  In every state the session can reach: nothing has been sent while
    there is no socket or the socket is still connecting; once the socket is
    open the frames sent begin with the registration carrying the user's
    name; and no later frame is a registration. *)
Theorem registration_first_and_once (acts : list Action) :
  let s := run initial acts in
  (socketRef s = None \/ socketRef s = Some CONNECTING -> sent s = [])
  /\ (socketRef s = Some OPEN ->
      exists rest,
        sent s = register_frame (userName s) :: rest
        /\ Forall (fun f => is_register_frame f = false) rest)
  /\ (sent s = []
      \/ exists rest,
           sent s = register_frame (userName s) :: rest
           /\ Forall (fun f => is_register_frame f = false) rest).
Proof.
  intros s.
  assert (Hr : registered s).
  { subst s. generalize registered_initial. generalize initial.
    induction acts as [|a acts IH]; intros s0 H0; simpl; [exact H0|].
    apply IH. now apply step_registered. }
  destruct Hr as [_ [H2 [H3 H4]]].
  split; [exact H2|]. split; [|exact H4].
  intros Ho. destruct H4 as [H4|H4]; [|exact H4].
  now specialize (H3 Ho).
Qed.

(** ** The loop, the counter and PLAY *)

(** X11.  In every state the session can reach, also when the channel is
    not open or a file callback writes back an old array, one continuation of
    the transmission loop is armed while [isTransmitting] and none otherwise:
    two loops never run side by side. *)
Theorem single_loop_always (acts : list Action) :
  let s := run initial acts in
  pending_transmits s = (if isTransmitting s then 1 else 0)
  /\ pending_transmits s <= 1.
Proof.
  intros s.
  assert (Hl : one_loop s).
  { subst s. generalize one_loop_initial. generalize initial.
    induction acts as [|a acts IH]; intros s0 H0; simpl; [exact H0|].
    apply IH. now apply step_one_loop. }
  unfold one_loop in Hl. split; [exact Hl|].
  rewrite Hl. destruct (isTransmitting s); lia.
Qed.

Lemma filter_flagged (cards : list Card) :
  Forall (fun c => transmitted c = true) cards ->
  List.filter transmitted cards = cards.
Proof.
  induction 1 as [|c l Hc _ IH]; simpl; [reflexivity|]. now rewrite Hc, IH.
Qed.

Lemma filter_unflagged (cards : list Card) :
  Forall (fun c => transmitted c = false) cards ->
  List.filter transmitted cards = [].
Proof.
  induction 1 as [|c l Hc _ IH]; simpl; [reflexivity|]. now rewrite Hc, IH.
Qed.

Lemma fifo_counter (s : App) :
  fifo s ->
  transmittedCount s = length (bingo_card_sends s)
  /\ (transmittedCount s = length (bingoCards s) ->
      bingo_card_sends s = map bingo_card_frame (bingoCards s)).
Proof.
  intros [done [pending [Hs [Hd [Hp Hsent]]]]].
  unfold transmittedCount.
  rewrite Hs, List.filter_app, (filter_flagged _ Hd), (filter_unflagged _ Hp),
    app_nil_r, Hsent, length_map.
  split; [reflexivity|]. rewrite length_app. intros Hlen.
  destruct pending; [now rewrite app_nil_r | simpl in Hlen; lia].
Qed.

(** X12.  On a run in which the channel is open whenever the store holds
    cards and file callbacks append to the store they started from, the
    counter of loaded cards shown to the user is the number of card frames
    sent, and when it reaches the number of cards the frames sent are those
    of all the cards of the store, in order. *)
Theorem loaded_counter_counts_sends (acts : list Action) :
  orderly initial acts ->
  let s := run initial acts in
  transmittedCount s = length (bingo_card_sends s)
  /\ (transmittedCount s = length (bingoCards s) ->
      bingo_card_sends s = map bingo_card_frame (bingoCards s)).
Proof.
  intros Ho s. apply fifo_counter.
  exact (proj1 (run_fifo acts initial fifo_initial one_loop_initial Ho)).
Qed.

Lemma loaded_counter_counts_sends_witness :
  transmittedCount (run initial abc_session) = 3
  /\ length (bingo_card_sends (run initial abc_session)) = 3.
Proof.
  destruct (loaded_counter_counts_sends abc_session abc_session_orderly)
    as [H _].
  split; [reflexivity|]. rewrite <- H. reflexivity.
Defined.

(** X13.  On such a run, when a click on PLAY sends anything, it sends the
    one frame [{type: 'play'}], the game has not started, the store is not
    empty, and a frame has been sent for every card of the store, in order. *)
Theorem play_after_all_cards (acts : list Action) :
  orderly initial acts ->
  let s := run initial acts in
  sent (step s ClickPlay) <> sent s ->
  sent (step s ClickPlay) = sent s ++ [play_frame]
  /\ gameStarted s = false
  /\ bingoCards s <> []
  /\ bingo_card_sends s = map bingo_card_frame (bingoCards s).
Proof.
  intros Ho s Hsent.
  pose proof (proj1 (run_fifo acts initial fifo_initial one_loop_initial Ho))
    as Hf.
  fold s in Hf. destruct (fifo_counter s Hf) as [_ Hall].
  simpl in Hsent |- *.
  destruct (negb (showStartModal s)); simpl in *; [|congruence].
  destruct (length (bingoCards s) =? 0) eqn:E0; simpl in *; [congruence|].
  destruct (gameStarted s); simpl in *; [congruence|].
  destruct (Nat.ltb_spec (transmittedCount s) (length (bingoCards s)))
    as [Hlt|Hge]; simpl in *; [congruence|].
  unfold handlePlay in *.
  destruct (socketRef s) as [[]|]; try congruence.
  split; [reflexivity|]. split; [reflexivity|]. split.
  - intros E. rewrite E in E0. discriminate E0.
  - apply Hall. apply Nat.le_antisymm; [|exact Hge].
    unfold transmittedCount. apply List.filter_length_le.
Qed.

Lemma play_after_all_cards_witness :
  sent (step (run initial abc_session) ClickPlay)
  = sent (run initial abc_session) ++ [play_frame]
  /\ bingo_card_sends (run initial abc_session)
     = map bingo_card_frame (bingoCards (run initial abc_session)).
Proof.
  destruct (play_after_all_cards abc_session abc_session_orderly)
    as [H1 [_ [_ H4]]].
  - vm_compute. intros H.
    apply (f_equal (@length json)) in H. discriminate H.
  - split; [exact H1 | exact H4].
Defined.

(** X14.  One round of [transmitNextCard] changes the content of no card
    and unflags none, leaves the interface state alone, and either sends
    nothing or sends, on an open socket, the one frame of a card of the
    store that was not flagged. *)
Theorem transmitNextCard_one_card (s : App) :
  let s' := transmitNextCard s in
  map card_content (bingoCards s') = map card_content (bingoCards s)
  /\ Forall2 (fun c c' => transmitted c = true -> transmitted c' = true)
             (bingoCards s) (bingoCards s')
  /\ ui s' = ui s
  /\ (sent s' = sent s
      \/ exists c, sent s' = sent s ++ [bingo_card_frame c]
                   /\ socketRef s = Some OPEN
                   /\ In c (bingoCards s) /\ transmitted c = false).
Proof.
  intros s'. subst s'.
  split; [apply transmitNextCard_content|].
  split; [|split; [apply transmitNextCard_ui|]].
  - assert (Hrefl : forall l : list Card,
               Forall2 (fun c c' => transmitted c = true -> transmitted c' = true)
                       l l).
    { induction l; constructor; auto. }
    destruct (transmitNextCard_cases s)
      as [[_ ->]|[done [c [rest [Hs [_ [_ ->]]]]]]]; [apply Hrefl|].
    simpl. rewrite Hs. apply Forall2_app; [apply Hrefl|].
    constructor; [reflexivity | apply Hrefl].
  - destruct (transmitNextCard_cases s)
      as [[_ ->]|[done [c [rest [Hs [_ [Hc ->]]]]]]]; [now left|].
    destruct (sendBingoCard_cases c s) as [[_ ->]|[Ho ->]]; [now left|].
    right. exists c. simpl. repeat split; try assumption.
    rewrite Hs. apply in_or_app. right. now left.
Qed.

(** ** Channel endpoint *)

Lemma startsWith_split (pat s : string) :
  startsWith pat s = true -> s = (pat ++ slice (String.length pat) s)%string.
Proof.
  revert s. induction pat as [|a pat IH]; intros s H; simpl.
  - reflexivity.
  - destruct s as [|b s]; [discriminate|]. simpl in H.
    apply andb_true_iff in H. destruct H as [Hab H].
    apply Ascii.eqb_eq in Hab. subst b.
    change (String a s
            = String a (pat ++ slice (String.length pat) s)%string).
    f_equal. now apply IH.
Qed.

Lemma replace_prefix (pat rep s : string) :
  startsWith pat s = true ->
  replace pat rep s = (rep ++ slice (String.length pat) s)%string.
Proof. intros H. destruct s; simpl; now rewrite H. Qed.

(** X15.  The address of the channel always has a WebSocket scheme and
    ends with [/ws/] and the user id: a server address [http://h] gives
    [ws://h/ws/id], [https://h] gives [wss://h/ws/id], and any other
    address, or the page's host when there is none, is prefixed with [wss://]
    on an https page and [ws://] otherwise. *)
Theorem getWebSocketUrl_shape (VITE_SERVER_URL : js string)
        (location : Location) (userId : string) :
  let server := SERVER_URL VITE_SERVER_URL location in
  exists scheme rest : string,
    getWebSocketUrl VITE_SERVER_URL location userId
    = (scheme ++ rest ++ "/ws/" ++ userId)%string
    /\ ((scheme = "ws://" /\ server = ("http://" ++ rest)%string)
        \/ (scheme = "wss://" /\ server = ("https://" ++ rest)%string)
        \/ (startsWith "http://" server = false
            /\ startsWith "https://" server = false
            /\ rest = (if truthy server then server else host location)
            /\ scheme = (if String.eqb (protocol location) "https:"
                         then "wss://" else "ws://"))).
Proof.
  intros server. unfold getWebSocketUrl. fold server.
  destruct (startsWith "http://" server) eqn:E1.
  - exists "ws://", (slice 7 server). rewrite (replace_prefix _ _ _ E1).
    split; [reflexivity|]. left. split; [reflexivity|].
    exact (startsWith_split _ _ E1).
  - destruct (startsWith "https://" server) eqn:E2.
    + exists "wss://", (slice 8 server). rewrite (replace_prefix _ _ _ E2).
      split; [reflexivity|]. right. left. split; [reflexivity|].
      exact (startsWith_split _ _ E2).
    + exists (if String.eqb (protocol location) "https:"
              then "wss://" else "ws://"),
             (if truthy server then server else host location).
      split.
      * destruct (String.eqb (protocol location) "https:"); reflexivity.
      * right. right. repeat split.
Qed.
